(** * Taxonomy assignment from BLAST hits: [blast_sorter.py]

    A shallow embedding of [src/simulate_metagenomes/blast_sorter.py]
    ([get_coverages], [assign_tax] and the two frame constructors) and the
    properties of it that the design document states.

    Conventions of the embedding.
    - Python [int] is [Z]; the [e_val] column (a non-negative real, never
      NaN) is [Q], compared with [Qcompare].
    - A pandas [DataFrame] is the list of its rows in frame order.  A row
      carries its index label, the seven hit columns and the optional
      ['origin'] column.
    - DataFrames are objects: [assign_tax] receives a reference to the
      caller's frame and returns a reference.  Frames live in a store;
      methods that build a frame allocate, [df['origin'] = v] writes in
      place.
    - A raised exception is [None].
    - [DataFrame.sort_values] on one column uses pandas' default
      [kind='quicksort'], which promises ascending keys and nothing on the
      order of rows with equal keys: it is modelled as an arbitrary sort
      into ascending order ([Quicksort]), and [assign_tax] is verified for
      every such sort.  On a list of columns pandas sorts lexicographically
      and keeps rows with equal keys in frame order ([stable_sort]). *)

From Stdlib Require Import ZArith QArith Lqa List Bool Lia String Permutation Sorted.
From stdpp Require Import base option list.

Open Scope Z_scope.

(* ------------------------------------------------------------------ *)
(** ** Data model *)

Inductive Origin := single | chimera.

(** The columns of a parsed BLAST frame ([make_raw_df]). *)
Record Hit := mkHit {
  query_id : string;
  hit_id : string;
  e_val : Q;
  query_length : Z;
  alignment_length : Z;
  start : Z;
  end_ : Z
}.

(** One row of a frame: index label, hit columns, ['origin'] if present. *)
Record Row := mkRow {
  label : nat;
  hit : Hit;
  origin : option Origin
}.

Abbreviation DataFrame := (list Row).

(** [pd.DataFrame(rows, columns=cols)]: a fresh [RangeIndex]. *)
Definition make_raw_df (rows : list Hit) : DataFrame :=
  imap (fun i h => mkRow i h None) rows.

Definition make_sorted_df (rows : list (Hit * Origin)) : DataFrame :=
  imap (fun i r => mkRow i (fst r) (Some (snd r))) rows.

(* ------------------------------------------------------------------ *)
(** ** [get_coverages] *)

(** [cov_start <= start <= cov_end for (cov_start, cov_end) in coverages] *)
Definition overlapping_flags (s : Z) (coverages : list (Z * Z)) : list bool :=
  map (fun cov => (fst cov <=? s) && (s <=? snd cov)) coverages.

(** [any(overlapping)] *)
Definition any (l : list bool) : bool := existsb id l.

(** [np.where(overlapping)[0]]: the positions holding [True]. *)
Fixpoint np_where_from (i : nat) (l : list bool) : list nat :=
  match l with
  | [] => []
  | b :: l' =>
      if b then i :: np_where_from (S i) l' else np_where_from (S i) l'
  end.

Definition np_where (l : list bool) : list nat := np_where_from 0 l.

(** [int(array)]: defined on arrays of exactly one element, a [TypeError]
    otherwise. *)
Definition int_of_array (a : list nat) : option nat :=
  match a with
  | [i] => Some i
  | _ => None
  end.

(** The body of the loop over [zip(starts, ends)]. *)
Definition merge_region (coverages : list (Z * Z)) (region : Z * Z)
  : option (list (Z * Z)) :=
  let overlapping := overlapping_flags (fst region) coverages in
  if any overlapping then
    i ← int_of_array (np_where overlapping);
    cov ← coverages !! i;
    Some (<[i := (fst cov, Z.max (snd region) (snd cov))]> coverages)
  else
    Some (coverages ++ [region]).

Fixpoint merge_regions (regions : list (Z * Z)) (coverages : list (Z * Z))
  : option (list (Z * Z)) :=
  match regions with
  | [] => Some coverages
  | region :: regions' =>
      coverages' ← merge_region coverages region;
      merge_regions regions' coverages'
  end.

Definition span_eqb (a b : Z * Z) : bool :=
  (fst a =? fst b) && (snd a =? snd b).

(** [x in l] *)
Definition list_contains (x : Z * Z) (l : list (Z * Z)) : bool :=
  existsb (span_eqb x) l.

(** [l.remove(x)]: drops the first occurrence. *)
Fixpoint list_remove (x : Z * Z) (l : list (Z * Z)) : list (Z * Z) :=
  match l with
  | [] => []
  | y :: l' => if span_eqb x y then l' else y :: list_remove x l'
  end.

Definition get_coverages (starts ends : list Z) : option (list (Z * Z)) :=
  coverages ← merge_regions (zip starts ends) [(1, 1)];
  Some (if list_contains (1, 1) coverages
        then list_remove (1, 1) coverages
        else coverages).

(* ------------------------------------------------------------------ *)
(** ** [DataFrame.sort_values] *)

Section StableSort.
Context {A : Type} (leb : A -> A -> bool).

Fixpoint insert_sorted (x : A) (l : list A) : list A :=
  match l with
  | [] => [x]
  | y :: l' => if leb x y then x :: l else y :: insert_sorted x l'
  end.

(** Rows are inserted from the last to the first, each before the first
    row it does not exceed: equal keys keep their frame order. *)
Fixpoint stable_sort (l : list A) : list A :=
  match l with
  | [] => []
  | x :: l' => insert_sorted x (stable_sort l')
  end.

(** The first row of the sorted frame, read off the unsorted one: going
    from the last row to the first, a row replaces the current best only
    if it does not exceed it. *)
Fixpoint first_best (l : list A) : option A :=
  match l with
  | [] => None
  | x :: l' =>
      match first_best l' with
      | None => Some x
      | Some y => if leb x y then Some x else Some y
      end
  end.
End StableSort.

(** [by='e_val', ascending=True] *)
Definition by_e_val (r1 r2 : Row) : bool :=
  Qle_bool (e_val (hit r1)) (e_val (hit r2)).

(** [by='start', ascending=True] *)
Definition by_start (r1 r2 : Row) : bool :=
  start (hit r1) <=? start (hit r2).

(** [by=['e_val', 'alignment_length'], ascending=[True, False]] *)
Definition by_e_val_alignment_length (r1 r2 : Row) : bool :=
  match (e_val (hit r1) ?= e_val (hit r2))%Q with
  | Lt => true
  | Eq => alignment_length (hit r2) <=? alignment_length (hit r1)
  | Gt => false
  end.

(** [sort_values] on one column uses pandas' default [kind='quicksort'],
    which returns the rows in ascending order of the key and does not say
    in which order rows with equal keys come out.  A [Quicksort] is any
    such sort; [assign_tax] is modelled for an arbitrary one. *)
Record Quicksort := {
  quicksort : (Row -> Row -> bool) -> DataFrame -> DataFrame;
  quicksort_Permutation :
    forall leb l, Permutation (quicksort leb l) l;
  quicksort_StronglySorted :
    forall leb l,
      (forall x y, leb x y = false -> leb y x = true) ->
      (forall x y z, leb x y = true -> leb y z = true -> leb x z = true) ->
      StronglySorted (fun a b => leb a b = true) (quicksort leb l)
}.

(** The sort that first rearranges the frame by [order] and then sorts it
    stably: rows with equal keys come out as [order] left them. *)
Definition quicksort_of (order : DataFrame -> DataFrame)
    (Horder : forall l, Permutation (order l) l) : Quicksort.
Proof.
  refine {| quicksort := fun leb l => stable_sort leb (order l) |}.
  - intros leb l. rewrite <- (Horder l) at 2. generalize (order l). clear.
    assert (Hins : forall x l, Permutation (insert_sorted leb x l) (x :: l)).
    { intros x l. induction l as [|y l IH]; simpl; [reflexivity|].
      destruct (leb x y); [reflexivity|]. rewrite IH. apply perm_swap. }
    intros l. induction l as [|x l IH]; simpl; [reflexivity|].
    rewrite Hins. by constructor.
  - intros leb l Htotal Htrans. generalize (order l). clear - Htotal Htrans.
    assert (Hins : forall x l, Permutation (insert_sorted leb x l) (x :: l)).
    { intros x l. induction l as [|y l IH]; simpl; [reflexivity|].
      destruct (leb x y); [reflexivity|]. rewrite IH. apply perm_swap. }
    intros l. induction l as [|x l IH]; simpl; [constructor|].
    induction IH as [|y l' Hl' IH' Hy]; simpl; [repeat constructor|].
    destruct (leb x y) eqn:Hxy.
    + constructor; [by constructor|]. constructor; [done|].
      eapply Forall_impl; [exact Hy|]. intros z Hz. simpl in Hz. eauto.
    + constructor; [done|]. rewrite Hins.
      constructor; [by apply Htotal|done].
Defined.

(** Two sorts the contract allows.  Equal keys keep their frame order: *)
Definition stable_quicksort : Quicksort :=
  quicksort_of (fun l => l) (fun l => Permutation_refl l).


(* ------------------------------------------------------------------ *)
(** ** The store of frame objects *)

Abbreviation loc := nat.
Abbreviation store := (list DataFrame).

(** A computation reads and writes the store and may raise. *)
Definition M (A : Type) : Type := store -> option (A * store).

#[export] Instance M_ret : MRet M := fun A a s => Some (a, s).
#[export] Instance M_bind : MBind M := fun A B f m s =>
  match m s with
  | Some (a, s') => f a s'
  | None => None
  end.

Definition new_frame (d : DataFrame) : M loc :=
  fun s => Some (length s, s ++ [d]).

Definition read (l : loc) : M DataFrame :=
  fun s => d ← s !! l; Some (d, s).

Definition write (l : loc) (d : DataFrame) : M unit :=
  fun s => _ ← s !! l; Some (tt, <[l := d]> s).

Definition or_raise {A : Type} (o : option A) : M A :=
  fun s => a ← o; Some (a, s).

(** [len(df.index)] *)
Definition len_index (df : loc) : M nat :=
  d ← read df; mret (length d).

Definition set_origin (v : Origin) (r : Row) : Row :=
  mkRow (label r) (hit r) (Some v).

(** [df['origin'] = v]: in place, on the object [df] refers to. *)
Definition setitem_origin (df : loc) (v : Origin) : M unit :=
  d ← read df; write df (map (set_origin v) d).

(** [df.sort_values(by=[col1, col2], ascending=[...])]: on several columns
    pandas sorts lexicographically and keeps rows with equal keys in frame
    order. *)
Definition sort_values_by_list (by_ : Row -> Row -> bool) (df : loc) : M loc :=
  d ← read df; new_frame (stable_sort by_ d).

(** [df.iterrows()] yields a copy of each row. *)
Definition iterrows (df : loc) : M (list Row) := read df.

(** [df.head(n)] *)
Definition df_head (n : nat) (df : loc) : M loc :=
  d ← read df; new_frame (take n d).

(** [df[mask]] *)
Definition getitem_mask (mask : Row -> bool) (df : loc) : M loc :=
  d ← read df; new_frame (List.filter mask d).

(** [pd.concat([a, b])] *)
Definition pd_concat (a b : loc) : M loc :=
  da ← read a; db ← read b; new_frame (da ++ db).

(** A fresh [RangeIndex] on the same rows. *)
Definition reindex (d : DataFrame) : DataFrame :=
  imap (fun i r => mkRow i (hit r) (origin r)) d.

(** [df.reset_index(drop=True)] *)
Definition reset_index (df : loc) : M loc :=
  d ← read df; new_frame (reindex d).

(** [df[col]] as the sequence of its values. *)
Definition column {A : Type} (col : Hit -> A) (df : loc) : M (list A) :=
  d ← read df; mret (map (fun r => col (hit r)) d).

(* ------------------------------------------------------------------ *)
(** ** [assign_tax] *)

(** [hit['query_length'] == hit['alignment_length']] *)
Definition is_full_length (r : Row) : bool :=
  query_length (hit r) =? alignment_length (hit r).

(** [hit['query_length'] < hit['alignment_length']] *)
Definition is_over_length (r : Row) : bool :=
  query_length (hit r) <? alignment_length (hit r).

(** [(df['start'] >= start) & (df['end'] <= end)] *)
Definition within (cov : Z * Z) (r : Row) : bool :=
  (fst cov <=? start (hit r)) && (end_ (hit r) <=? snd cov).

(** [hit['origin'] = 'single'; make_sorted_df([list(hit)])] *)
Definition single_row_df (r : Row) : M loc :=
  new_frame (make_sorted_df [(hit r, single)]).

(** The loop over [coverages] that builds [out_df]. *)
Fixpoint for_coverages (coverages : list (Z * Z)) (df out_df : loc) : M loc :=
  match coverages with
  | [] => mret out_df
  | cov :: coverages' =>
      _ ← setitem_origin df chimera;
      hits ← getitem_mask (within cov) df;
      hits ← sort_values_by_list by_e_val_alignment_length hits;
      best_hit ← df_head 1 hits;
      out_df ← pd_concat out_df best_hit;
      for_coverages coverages' df out_df
  end.

Section AssignTax.
Variable qs : Quicksort.

(** [df.sort_values(by=col, ascending=True)]: on one column, the default
    [kind='quicksort']. *)
Definition sort_values (by_ : Row -> Row -> bool) (df : loc) : M loc :=
  d ← read df; new_frame (quicksort qs by_ d).

Definition assign_tax (df : loc) : M loc :=
  n ← len_index df;
  if (n =? 1)%nat then
    _ ← setitem_origin df single;
    mret df
  else
    df ← sort_values by_e_val df;
    rows ← iterrows df;
    match List.find is_full_length rows with
    | Some r => single_row_df r
    | None =>
    match List.find is_over_length rows with
    | Some r => single_row_df r
    | None =>
        start_sorted_df ← sort_values by_start df;
        starts ← column start start_sorted_df;
        ends ← column end_ start_sorted_df;
        coverages ← or_raise (get_coverages starts ends);
        if (length coverages =? 1)%nat then
          df ← sort_values_by_list by_e_val_alignment_length df;
          df ← df_head 1 df;
          _ ← setitem_origin df single;
          mret df
        else
          out_df ← new_frame [];
          out_df ← for_coverages coverages df out_df;
          reset_index out_df
    end
    end.

(** What a caller sees: the frame it passed, after the call, and the frame
    the returned reference denotes. *)
Definition call_assign_tax (d : DataFrame) : option (DataFrame * DataFrame * bool) :=
  match assign_tax 0%nat [d] with
  | Some (l, s) =>
      d_after ← s !! 0%nat;
      out ← s !! l;
      Some (d_after, out, bool_decide (l = 0%nat))
  | None => None
  end.


(* ------------------------------------------------------------------ *)
(** ** The rows of the frame [assign_tax] returns

    [sort_values(by=['e_val', 'alignment_length'], ascending=[True, False])]
    followed by [head(1)], on the rows of a frame. *)
Definition best_hit (d : DataFrame) : DataFrame :=
  take 1 (stable_sort by_e_val_alignment_length d).

(** One pass of the loop over [coverages], on the rows of [df]. *)
Definition region_best (df : DataFrame) (cov : Z * Z) : DataFrame :=
  best_hit (List.filter (within cov) (map (set_origin chimera) df)).

(** The spans handed to [get_coverages]: the [start] and [end] columns of
    the frame sorted by [e_val] and then by [start]. *)
Definition start_sorted (d : DataFrame) : DataFrame :=
  quicksort qs by_start (quicksort qs by_e_val d).

Definition coverages_of (d : DataFrame) : option (list (Z * Z)) :=
  get_coverages (map (fun r => start (hit r)) (start_sorted d))
                (map (fun r => end_ (hit r)) (start_sorted d)).

(** The rows of the frame returned for a frame [d] that does not hold
    exactly one row; [assign_tax_resolve] below proves it. *)
Definition resolve (d : DataFrame) : option DataFrame :=
  let df := quicksort qs by_e_val d in
  match List.find is_full_length df with
  | Some r => Some (make_sorted_df [(hit r, single)])
  | None =>
  match List.find is_over_length df with
  | Some r => Some (make_sorted_df [(hit r, single)])
  | None =>
      coverages ← coverages_of d;
      Some (if (length coverages =? 1)%nat
            then map (set_origin single) (best_hit df)
            else reindex (flat_map (region_best df) coverages))
  end
  end.

(* ------------------------------------------------------------------ *)
(** ** Spans and intervals as sets of positions *)

Definition in_span (sp : Z * Z) (x : Z) : Prop := fst sp <= x <= snd sp.

(** Some span of [regions] lies inside [cov]. *)
Definition has_span (regions : list (Z * Z)) (cov : Z * Z) : Prop :=
  exists sp, sp ∈ regions /\ fst cov <= fst sp /\ snd sp <= snd cov.

(** Invariant of the loop of [get_coverages] after the spans [done_]: the
    first interval is the seed [(1, 1)] or has a span inside it, every later
    interval has a span inside it. *)
Definition spans_inside (done_ coverages : list (Z * Z)) : Prop :=
  exists c0 rest, coverages = c0 :: rest /\
    (c0 = (1, 1) \/ has_span done_ c0) /\ Forall (has_span done_) rest.

(** When the starts ascend, only the last interval can overlap the next
    span, and the loop of [get_coverages] comes down to this recursion
    ([merge_regions_last] below). *)
Fixpoint merge_from (cur : Z * Z) (regions : list (Z * Z)) : list (Z * Z) :=
  match regions with
  | [] => [cur]
  | region :: regions' =>
      if fst region <=? snd cur
      then merge_from (fst cur, Z.max (snd region) (snd cur)) regions'
      else cur :: merge_from region regions'
  end.

(** The guarantee stated for the intervals [out] merged from [spans]:
    no two of them share a position; they come in the order in which their
    origin spans (same start, inside the interval) come in [spans]; each
    holds exactly the positions of the spans that start inside it. *)
Definition merged_intervals (spans out : list (Z * Z)) : Prop :=
  (forall i j a b, i <> j -> out !! i = Some a -> out !! j = Some b ->
     forall x, ~ (in_span a x /\ in_span b x)) /\
  (exists origins,
     sublist origins spans /\
     Forall2 (fun cov o => fst cov = fst o /\ snd o <= snd cov) out origins) /\
  (forall cov, cov ∈ out ->
     forall x, in_span cov x <->
       exists sp, sp ∈ spans /\ in_span cov (fst sp) /\ in_span sp x).

(** The row emitted for the interval [cov]: tagged [chimera], and a hit of
    [d] inside [cov] that no hit of [d] inside [cov] outranks. *)
Definition best_in_region (d : DataFrame) (cov : Z * Z) (row : Row) : Prop :=
  origin row = Some chimera /\
  exists r, r ∈ d /\ hit row = hit r /\
    (fst cov <= start (hit r) /\ end_ (hit r) <= snd cov) /\
    forall r', r' ∈ d ->
      fst cov <= start (hit r') -> end_ (hit r') <= snd cov ->
      (e_val (hit r) < e_val (hit r'))%Q \/
      ((e_val (hit r) == e_val (hit r'))%Q /\
       alignment_length (hit r') <= alignment_length (hit r)).




(* ------------------------------------------------------------------ *)
(** ** The frames of the repository's tests *)

Definition in_various_full_hits : DataFrame :=
  make_raw_df
    [mkHit "k1_1" "GCF_001" (116 # 1000000000000000000000000000000)
       535 535 1 535;
     mkHit "k1_1" "GCF_002" 0 535 535 1 535].

Definition in_longer_than_query : DataFrame :=
  make_raw_df
    [mkHit "k1_1" "GCF_001" 0 570 417 1 416;
     mkHit "k1_1" "GCF_002" 0 570 571 1 570].

Definition in_no_full_hits : DataFrame :=
  make_raw_df
    [mkHit "k1_1" "GCF_001" 0 570 417 1 416;
     mkHit "k1_1" "GCF_002" 0 570 405 1 404;
     mkHit "k1_1" "GCF_003" (5 # 100) 570 500 1 499].

Definition in_chimera : DataFrame :=
  make_raw_df
    [mkHit "k1_1" "GCF_001" 0 500 200 1 199;
     mkHit "k1_1" "GCF_002" 0 500 200 3 201;
     mkHit "k1_1" "GCF_003" 0 500 200 301 500;
     mkHit "k1_1" "GCF_004" (5 # 100) 500 250 251 500].

Definition in_tied_hits : DataFrame :=
  make_raw_df
    [mkHit "k1_1" "GCF_001" (5 # 100) 570 500 1 499;
     mkHit "k1_1" "GCF_002" 0 570 417 1 416;
     mkHit "k1_1" "GCF_003" 0 570 417 2 417;
     mkHit "k1_1" "GCF_004" 0 570 405 1 404].


(** Three hits on separate parts of a contig of length 100, the first of
    them the single base at position 1. *)
Definition in_single_base_at_1 : DataFrame :=
  make_raw_df
    [mkHit "k1_1" "GCF_001" 0 100 1 1 1;
     mkHit "k1_1" "GCF_002" 0 100 6 5 10;
     mkHit "k1_1" "GCF_003" 0 100 11 20 30].

(* ------------------------------------------------------------------ *)
(** ** Facts about the stable sort *)

Section StableSortFacts.
Context {A : Type} (leb : A -> A -> bool).

Lemma insert_sorted_perm x l : Permutation (insert_sorted leb x l) (x :: l).
Proof.
  induction l as [|y l IH]; simpl; [reflexivity|].
  destruct (leb x y); [reflexivity|].
  rewrite IH. apply perm_swap.
Qed.

Lemma stable_sort_perm l : Permutation (stable_sort leb l) l.
Proof.
  induction l as [|x l IH]; simpl; [reflexivity|].
  rewrite insert_sorted_perm. by constructor.
Qed.

Lemma stable_sort_length l : length (stable_sort leb l) = length l.
Proof. apply Permutation_length, stable_sort_perm. Qed.


Lemma head_insert_sorted x l :
  head (insert_sorted leb x l) =
  Some (match head l with
        | None => x
        | Some y => if leb x y then x else y
        end).
Proof. destruct l as [|y l]; simpl; [done|]. by destruct (leb x y). Qed.

Lemma head_stable_sort l : head (stable_sort leb l) = first_best leb l.
Proof.
  induction l as [|x l IH]; simpl; [done|].
  rewrite head_insert_sorted, IH.
  destruct (first_best leb l) as [y|]; [|done]. by destruct (leb x y).
Qed.

Lemma take_1_stable_sort l :
  take 1 (stable_sort leb l) = option_list (first_best leb l).
Proof.
  rewrite <- head_stable_sort. by destruct (stable_sort leb l).
Qed.

Lemma first_best_is_Some l : l <> [] -> is_Some (first_best leb l).
Proof.
  destruct l as [|x l]; [done|]. intros _. simpl.
  destruct (first_best leb l) as [y|]; [destruct (leb x y)|]; eauto.
Qed.



Hypothesis leb_total : forall x y, leb x y = false -> leb y x = true.
Hypothesis leb_trans :
  forall x y z, leb x y = true -> leb y z = true -> leb x z = true.

Lemma leb_refl x : leb x x = true.
Proof.
  destruct (leb x x) eqn:E; [done|]. by rewrite (leb_total _ _ E) in E.
Qed.

Lemma first_best_split l h :
  first_best leb l = Some h ->
  exists l1 l2, l = l1 ++ h :: l2 /\
    Forall (fun x => leb x h = false) l1 /\
    Forall (fun x => leb h x = true) l2.
Proof.
  revert h. induction l as [|x l IH]; intros h; simpl; [done|].
  destruct (first_best leb l) as [y|] eqn:Hy.
  - destruct (IH y eq_refl) as (l1 & l2 & -> & H1 & H2).
    destruct (leb x y) eqn:Hxy; intros [= <-].
    + exists [], (l1 ++ y :: l2). repeat split; [constructor|].
      apply Forall_app. split; [|constructor].
      * eapply Forall_impl; [exact H1|]. intros z Hz. simpl in Hz.
        eauto.
      * done.
      * eapply Forall_impl; [exact H2|]. intros z Hz. simpl in Hz. eauto.
    + exists (x :: l1), l2. repeat split; [by constructor|done].
  - intros [= <-]. destruct l as [|z l].
    + exists [], []. repeat split; constructor.
    + simpl in Hy. destruct (first_best leb l) as [w|];
        [destruct (leb z w)|]; done.
Qed.

Lemma first_best_min l h :
  first_best leb l = Some h -> h ∈ l /\ forall x, x ∈ l -> leb h x = true.
Proof.
  intros (l1 & l2 & -> & H1 & H2)%first_best_split. split.
  - apply elem_of_app. right. left.
  - intros x [Hx|Hx]%elem_of_app.
    + apply leb_total. by eapply (proj1 (Forall_forall _ _) H1).
    + apply elem_of_cons in Hx as [->|Hx]; [apply leb_refl|].
      by eapply (proj1 (Forall_forall _ _) H2).
Qed.

Lemma insert_sorted_sorted x l :
  StronglySorted (fun a b => leb a b = true) l ->
  StronglySorted (fun a b => leb a b = true) (insert_sorted leb x l).
Proof.
  induction 1 as [|y l Hl IH Hy]; simpl; [repeat constructor|].
  destruct (leb x y) eqn:Hxy.
  - constructor; [by constructor|]. constructor; [done|].
    eapply Forall_impl; [exact Hy|]. intros z Hz. simpl in Hz. eauto.
  - constructor; [done|]. rewrite insert_sorted_perm.
    constructor; [by apply leb_total|done].
Qed.

Lemma stable_sort_sorted l :
  StronglySorted (fun a b => leb a b = true) (stable_sort leb l).
Proof.
  induction l; simpl; [constructor|by apply insert_sorted_sorted].
Qed.
End StableSortFacts.

(* ------------------------------------------------------------------ *)
(** ** What is known of the one-column sort *)

Lemma quicksort_perm leb l : Permutation (quicksort qs leb l) l.
Proof. apply quicksort_Permutation. Qed.

Lemma quicksort_length leb l : length (quicksort qs leb l) = length l.
Proof. apply Permutation_length, quicksort_perm. Qed.

Lemma quicksort_elem leb (x : Row) l : x ∈ quicksort qs leb l <-> x ∈ l.
Proof. by rewrite quicksort_perm. Qed.

Lemma quicksort_sorted leb :
  (forall x y, leb x y = false -> leb y x = true) ->
  (forall x y z, leb x y = true -> leb y z = true -> leb x z = true) ->
  forall l, StronglySorted (fun a b => leb a b = true) (quicksort qs leb l).
Proof. intros H1 H2 l. by apply quicksort_StronglySorted. Qed.

(* ------------------------------------------------------------------ *)
(** ** The three sort keys are total preorders *)

Lemma by_e_val_total r1 r2 : by_e_val r1 r2 = false -> by_e_val r2 r1 = true.
Proof.
  unfold by_e_val. intros H. apply Qle_bool_iff.
  destruct (Qlt_le_dec (e_val (hit r2)) (e_val (hit r1))) as [Hlt|Hle].
  - by apply Qlt_le_weak.
  - apply Qle_bool_iff in Hle. congruence.
Qed.

Lemma by_e_val_trans r1 r2 r3 :
  by_e_val r1 r2 = true -> by_e_val r2 r3 = true -> by_e_val r1 r3 = true.
Proof.
  unfold by_e_val. rewrite !Qle_bool_iff. apply Qle_trans.
Qed.

Lemma by_start_total r1 r2 : by_start r1 r2 = false -> by_start r2 r1 = true.
Proof. unfold by_start. lia. Qed.

Lemma by_start_trans r1 r2 r3 :
  by_start r1 r2 = true -> by_start r2 r3 = true -> by_start r1 r3 = true.
Proof. unfold by_start. lia. Qed.

(** The two-column key, spelled out. *)
Lemma by_e_val_alignment_length_spec r1 r2 :
  by_e_val_alignment_length r1 r2 = true <->
  (e_val (hit r1) < e_val (hit r2))%Q \/
  ((e_val (hit r1) == e_val (hit r2))%Q /\
   alignment_length (hit r2) <= alignment_length (hit r1)).
Proof.
  unfold by_e_val_alignment_length.
  destruct (e_val (hit r1) ?= e_val (hit r2))%Q eqn:E.
  - apply Qeq_alt in E. rewrite Z.leb_le. split; [intros; right; by split|].
    intros [H|[_ H]]; [lra|done].
  - apply Qlt_alt in E. split; [by left|done].
  - apply Qgt_alt in E. split; [done|]. intros [H|[H _]]; lra.
Qed.

Lemma by_e_val_alignment_length_total r1 r2 :
  by_e_val_alignment_length r1 r2 = false ->
  by_e_val_alignment_length r2 r1 = true.
Proof.
  intros H. apply by_e_val_alignment_length_spec.
  assert (Hn : ~ by_e_val_alignment_length r1 r2 = true) by congruence.
  rewrite by_e_val_alignment_length_spec in Hn.
  destruct (Q_dec (e_val (hit r1)) (e_val (hit r2))) as [[Hlt|Hgt]|Heq].
  - destruct Hn. by left.
  - by left.
  - right. split; [lra|].
    destruct (Z_le_gt_dec (alignment_length (hit r2))
                (alignment_length (hit r1))) as [Hle|Hgt]; [|lia].
    destruct Hn. right. by split.
Qed.

Lemma by_e_val_alignment_length_trans r1 r2 r3 :
  by_e_val_alignment_length r1 r2 = true ->
  by_e_val_alignment_length r2 r3 = true ->
  by_e_val_alignment_length r1 r3 = true.
Proof.
  rewrite !by_e_val_alignment_length_spec.
  intros [H12|[H12 L12]] [H23|[H23 L23]].
  - left. lra.
  - left. lra.
  - left. lra.
  - right. split; [lra|lia].
Qed.

(* ------------------------------------------------------------------ *)
(** ** Running frame methods on a store *)

Lemma run_bind {A B : Type} (m : M A) (f : A -> M B) s :
  (m ≫= f) s = match m s with Some (a, s') => f a s' | None => None end.
Proof. reflexivity. Qed.

Lemma read_run s l d : s !! l = Some d -> read l s = Some (d, s).
Proof. intros H. unfold read. by rewrite H. Qed.

Lemma write_run s l d d' :
  s !! l = Some d -> write l d' s = Some (tt, <[l := d']> s).
Proof. intros H. unfold write. by rewrite H. Qed.

Lemma len_index_run s l d :
  s !! l = Some d -> len_index l s = Some (length d, s).
Proof. intros H. unfold len_index. by rewrite run_bind, (read_run _ _ d). Qed.

Lemma setitem_origin_run s l d v :
  s !! l = Some d ->
  setitem_origin l v s = Some (tt, <[l := map (set_origin v) d]> s).
Proof.
  intros H. unfold setitem_origin.
  by rewrite run_bind, (read_run _ _ d), (write_run _ _ d).
Qed.

Lemma sort_values_run s l d by_ :
  s !! l = Some d ->
  sort_values by_ l s = Some (length s, s ++ [quicksort qs by_ d]).
Proof. intros H. unfold sort_values. by rewrite run_bind, (read_run _ _ d). Qed.

Lemma sort_values_by_list_run s l d by_ :
  s !! l = Some d ->
  sort_values_by_list by_ l s = Some (length s, s ++ [stable_sort by_ d]).
Proof.
  intros H. unfold sort_values_by_list. by rewrite run_bind, (read_run _ _ d).
Qed.

Lemma df_head_run s l d n :
  s !! l = Some d -> df_head n l s = Some (length s, s ++ [take n d]).
Proof. intros H. unfold df_head. by rewrite run_bind, (read_run _ _ d). Qed.

Lemma getitem_mask_run s l d mask :
  s !! l = Some d ->
  getitem_mask mask l s = Some (length s, s ++ [List.filter mask d]).
Proof. intros H. unfold getitem_mask. by rewrite run_bind, (read_run _ _ d). Qed.

Lemma pd_concat_run s a b da db :
  s !! a = Some da -> s !! b = Some db ->
  pd_concat a b s = Some (length s, s ++ [da ++ db]).
Proof.
  intros Ha Hb. unfold pd_concat.
  by rewrite run_bind, (read_run _ _ da), run_bind, (read_run _ _ db).
Qed.

Lemma reset_index_run s l d :
  s !! l = Some d -> reset_index l s = Some (length s, s ++ [reindex d]).
Proof. intros H. unfold reset_index. by rewrite run_bind, (read_run _ _ d). Qed.

Lemma column_run {A : Type} (col : Hit -> A) s l d :
  s !! l = Some d ->
  column col l s = Some (map (fun r => col (hit r)) d, s).
Proof. intros H. unfold column. by rewrite run_bind, (read_run _ _ d). Qed.

Lemma lookup_snoc_new (s : store) (d : DataFrame) :
  (s ++ [d]) !! length s = Some d.
Proof. by rewrite lookup_app_r, Nat.sub_diag by lia. Qed.

Lemma lookup_snoc_old (s : store) (d : DataFrame) (l : loc) :
  (l < length s)%nat -> (s ++ [d]) !! l = s !! l.
Proof. intros. by apply lookup_app_l. Qed.

Lemma set_origin_idem v (d : DataFrame) :
  map (set_origin v) (map (set_origin v) d) = map (set_origin v) d.
Proof. rewrite map_map. by apply map_ext. Qed.

(** Frames already in the store keep their place when a method allocates. *)
Ltac old_frame :=
  repeat first
    [ rewrite lookup_snoc_old
        by (rewrite ?length_app, ?length_insert; simpl; lia)
    | rewrite list_lookup_insert_ne
        by (rewrite ?length_app, ?length_insert; simpl; lia) ].

(** The loop over [coverages] appends the best row of each region to
    [out_df]; it writes to [df] alone among the frames it was given. *)
Lemma for_coverages_run coverages :
  forall (s : store) (df out_df : loc) (d o : DataFrame),
    s !! df = Some d -> s !! out_df = Some o -> df <> out_df ->
    exists l' s',
      for_coverages coverages df out_df s = Some (l', s') /\
      s' !! l' = Some (o ++ flat_map (region_best d) coverages) /\
      (length s <= length s')%nat /\
      (forall j, (j < length s)%nat -> j <> df -> s' !! j = s !! j).
Proof.
  induction coverages as [|cov coverages IH]; intros s df out_df d o Hd Ho Hne.
  - exists out_df, s. simpl. rewrite app_nil_r. by repeat split.
  - pose proof (lookup_lt_Some _ _ _ Hd) as Hdf.
    pose proof (lookup_lt_Some _ _ _ Ho) as Hout.
    set (d' := map (set_origin chimera) d).
    set (s1 := <[df := d']> s).
    assert (H1 : s1 !! df = Some d') by (by apply list_lookup_insert_eq).
    assert (L1 : length s1 = length s) by apply length_insert.
    set (hits := List.filter (within cov) d').
    set (s2 := s1 ++ [hits]).
    set (s3 := s2 ++ [stable_sort by_e_val_alignment_length hits]).
    set (s4 := s3 ++ [best_hit hits]).
    set (s5 := s4 ++ [o ++ best_hit hits]).
    destruct (IH s5 df (length s4) d' (o ++ best_hit hits))
      as (l' & s' & Hrun & Hl' & Hlen & Hold).
    { unfold s5, s4, s3, s2. old_frame. exact H1. }
    { apply lookup_snoc_new. }
    { unfold s4, s3, s2. rewrite !length_app. simpl. lia. }
    exists l', s'. split; [|split; [|split]].
    + cbn [for_coverages]. rewrite run_bind, (setitem_origin_run _ _ d) by done.
      fold d' s1.
      rewrite run_bind, (getitem_mask_run _ _ d') by done. fold hits s2.
      rewrite run_bind, (sort_values_by_list_run _ _ hits)
        by (unfold s2; apply lookup_snoc_new).
      fold s3.
      rewrite run_bind, (df_head_run _ _ (stable_sort by_e_val_alignment_length hits))
        by (unfold s3; apply lookup_snoc_new).
      fold (best_hit hits). fold s4.
      rewrite run_bind, (pd_concat_run _ _ _ o (best_hit hits)).
      * exact Hrun.
      * unfold s4, s3, s2, s1. old_frame. exact Ho.
      * unfold s4. apply lookup_snoc_new.
    + rewrite Hl'. f_equal. cbn [flat_map]. rewrite <- app_assoc. f_equal.
      f_equal.
      apply flat_map_ext. intros c. unfold region_best, d'.
      by rewrite set_origin_idem.
    + unfold s5, s4, s3, s2 in Hlen. rewrite !length_app, L1 in Hlen.
      simpl in Hlen. lia.
    + intros j Hj Hjne. rewrite Hold.
      * unfold s5, s4, s3, s2, s1. by old_frame.
      * unfold s5, s4, s3, s2. rewrite !length_app, L1. simpl. lia.
      * done.
Qed.

(* ------------------------------------------------------------------ *)
(** ** Running [assign_tax] *)

(** One hit: the caller's frame gets the column and is returned itself. *)
Lemma assign_tax_single (s : store) (l : loc) (d : DataFrame) :
  s !! l = Some d -> length d = 1%nat ->
  assign_tax l s = Some (l, <[l := map (set_origin single) d]> s).
Proof.
  intros Hd Hlen. unfold assign_tax.
  rewrite run_bind, (len_index_run _ _ d), Hlen by done. cbn [Nat.eqb].
  by rewrite run_bind, (setitem_origin_run _ _ d).
Qed.

(** Any other number of hits: the returned frame is a new object holding
    the rows [resolve] gives, every frame that was in the store is as it
    was, and the call raises exactly when [get_coverages] does. *)
Lemma assign_tax_resolve (s : store) (l : loc) (d : DataFrame) :
  s !! l = Some d -> length d <> 1%nat ->
  match resolve d with
  | Some out =>
      exists l' s',
        assign_tax l s = Some (l', s') /\
        s' !! l' = Some out /\
        (length s <= l')%nat /\
        (forall j, (j < length s)%nat -> s' !! j = s !! j)
  | None => assign_tax l s = None
  end.
Proof.
  intros Hd Hlen.
  pose proof (lookup_lt_Some _ _ _ Hd) as Hl.
  unfold assign_tax, resolve.
  rewrite run_bind, (len_index_run _ _ d) by done.
  apply Nat.eqb_neq in Hlen. rewrite Hlen.
  rewrite run_bind, (sort_values_run _ _ d) by done.
  set (df := quicksort qs by_e_val d). set (s1 := s ++ [df]).
  assert (H1 : s1 !! length s = Some df) by apply lookup_snoc_new.
  unfold iterrows. rewrite run_bind, (read_run _ _ df) by done.
  assert (Hfresh : forall r,
    exists l' s',
      single_row_df r s1 = Some (l', s') /\
      s' !! l' = Some (make_sorted_df [(hit r, single)]) /\
      (length s <= l')%nat /\
      (forall j, (j < length s)%nat -> s' !! j = s !! j)).
  { intros r. eexists _, _. split; [reflexivity|]. split; [|split].
    - apply lookup_snoc_new.
    - unfold s1. rewrite length_app. simpl. lia.
    - intros j Hj. unfold s1. by old_frame. }
  destruct (List.find is_full_length df) as [r|]; [apply Hfresh|].
  destruct (List.find is_over_length df) as [r|]; [apply Hfresh|].
  clear Hfresh.
  rewrite run_bind, (sort_values_run _ _ df) by done.
  change (quicksort qs by_start df) with (start_sorted d).
  set (s2 := s1 ++ [start_sorted d]).
  assert (L1 : length s1 = S (length s))
    by (unfold s1; rewrite length_app; simpl; lia).
  assert (L2 : length s2 = S (S (length s)))
    by (unfold s2; rewrite length_app; simpl; lia).
  assert (H2 : s2 !! length s1 = Some (start_sorted d))
    by apply lookup_snoc_new.
  rewrite run_bind, (column_run _ _ _ (start_sorted d)) by done.
  rewrite run_bind, (column_run _ _ _ (start_sorted d)) by done.
  rewrite run_bind. unfold or_raise. fold (coverages_of d).
  destruct (coverages_of d) as [coverages|]; [|done]. cbn [mbind option_bind].
  assert (H2df : s2 !! length s = Some df)
    by (unfold s2; by old_frame).
  destruct (length coverages =? 1)%nat.
  - rewrite run_bind, (sort_values_by_list_run _ _ df) by done.
    rewrite run_bind, (df_head_run _ _ (stable_sort by_e_val_alignment_length df))
      by apply lookup_snoc_new.
    fold (best_hit df).
    rewrite run_bind, (setitem_origin_run _ _ (best_hit df))
      by apply lookup_snoc_new.
    eexists _, _. split; [reflexivity|]. split; [|split].
    + apply list_lookup_insert_eq. rewrite !length_app. simpl. lia.
    + rewrite !length_app. simpl. lia.
    + intros j Hj. unfold s2, s1. rewrite !length_app. simpl. by old_frame.
  - rewrite run_bind. unfold new_frame at 1.
    destruct (for_coverages_run coverages (s2 ++ [[]]) (length s) (length s2)
                df []) as (l' & s' & Hrun & Hl' & Hlen' & Hold).
    { by old_frame. }
    { apply lookup_snoc_new. }
    { lia. }
    rewrite run_bind, Hrun. rewrite (reset_index_run _ _ _ Hl').
    rewrite length_app in Hlen'. simpl in Hlen'.
    eexists _, _. split; [reflexivity|]. split; [|split].
    + apply lookup_snoc_new.
    + lia.
    + intros j Hj. old_frame. rewrite Hold.
      * unfold s2, s1. by old_frame.
      * rewrite length_app. simpl. lia.
      * lia.
Qed.

Lemma find_split {A : Type} (P : A -> bool) (l : list A) (x : A) :
  List.find P l = Some x ->
  exists l1 l2, l = l1 ++ x :: l2 /\ P x = true /\
    Forall (fun y => P y = false) l1.
Proof.
  induction l as [|y l IH]; simpl; [done|].
  destruct (P y) eqn:Hy.
  - intros [= <-]. exists [], l. by repeat split.
  - intros (l1 & l2 & -> & Hx & H1)%IH.
    exists (y :: l1), l2. repeat split; [done|by constructor].
Qed.

Lemma find_is_Some {A : Type} (P : A -> bool) (l : list A) (x : A) :
  x ∈ l -> P x = true -> is_Some (List.find P l).
Proof.
  intros Hx HP. destruct (List.find P l) eqn:E; [eauto|].
  apply list_elem_of_In in Hx.
  pose proof (find_none _ _ E _ Hx). congruence.
Qed.

Lemma StronglySorted_weaken {A : Type} (R1 R2 : A -> A -> Prop) (l : list A) :
  (forall x y, R1 x y -> R2 x y) ->
  StronglySorted R1 l -> StronglySorted R2 l.
Proof.
  intros HR. induction 1 as [|x l Hl IH Hx]; constructor; [done|].
  eapply Forall_impl; [exact Hx|]. intros y. apply HR.
Qed.

(** The frame sorted by [e_val] holds the same rows, in ascending order of
    [e_val]. *)
Lemma sorted_by_e_val (d : DataFrame) :
  Permutation (quicksort qs by_e_val d) d /\
  StronglySorted (fun r1 r2 => (e_val (hit r1) <= e_val (hit r2))%Q)
    (quicksort qs by_e_val d).
Proof.
  split; [apply quicksort_perm|].
  eapply StronglySorted_weaken;
    [|apply quicksort_sorted; [apply by_e_val_total|apply by_e_val_trans]].
  intros r1 r2 H. by apply Qle_bool_iff.
Qed.

Lemma sorted_perm_unique {A : Type} (leb : A -> A -> bool) (l1 : list A) :
  forall l2,
    Permutation l1 l2 ->
    StronglySorted (fun a b => leb a b = true) l1 ->
    StronglySorted (fun a b => leb a b = true) l2 ->
    (forall x y, x ∈ l1 -> y ∈ l1 ->
       leb x y = true -> leb y x = true -> x = y) ->
    l1 = l2.
Proof.
  induction l1 as [|x l1 IH]; intros l2 Hperm H1 H2 Hanti.
  { by apply Permutation_nil in Hperm. }
  destruct l2 as [|y l2].
  { symmetry in Hperm. by apply Permutation_nil in Hperm. }
  apply StronglySorted_inv in H1 as [H1 Hx].
  apply StronglySorted_inv in H2 as [H2 Hy].
  assert (Hxy : x = y).
  { assert (Hx2 : x ∈ y :: l2) by (rewrite <- Hperm; left).
    assert (Hy1 : y ∈ x :: l1) by (rewrite Hperm; left).
    apply elem_of_cons in Hx2 as [->|Hx2]; [done|].
    apply elem_of_cons in Hy1 as [->|Hy1]; [done|].
    apply Hanti; [left|by right| |].
    - by apply (proj1 (Forall_forall _ _) Hx).
    - by apply (proj1 (Forall_forall _ _) Hy). }
  subst y. f_equal. apply IH; [by eapply Permutation_cons_inv|done|done|].
  intros a b Ha Hb. apply Hanti; by right.
Qed.

(** Where the key tells all rows apart, the sorted frame is the only
    ascending arrangement of the rows. *)
Lemma quicksort_unique leb (l sorted : DataFrame) :
  (forall x y, leb x y = false -> leb y x = true) ->
  (forall x y z, leb x y = true -> leb y z = true -> leb x z = true) ->
  (forall x y, x ∈ l -> y ∈ l -> leb x y = true -> leb y x = true -> x = y) ->
  Permutation sorted l ->
  StronglySorted (fun a b => leb a b = true) sorted ->
  quicksort qs leb l = sorted.
Proof.
  intros Htotal Htrans Hanti Hperm Hsorted.
  apply (sorted_perm_unique leb).
  - by rewrite quicksort_perm.
  - by apply quicksort_sorted.
  - done.
  - intros x y Hx%quicksort_elem Hy%quicksort_elem. by apply Hanti.
Qed.

Lemma quicksort_nil leb : quicksort qs leb [] = [].
Proof. apply Permutation_nil. symmetry. apply quicksort_perm. Qed.

Lemma resolve_nil : resolve [] = Some [].
Proof.
  unfold resolve, coverages_of, start_sorted. by rewrite !quicksort_nil.
Qed.

(** The rows of a frame written out, one case per row. *)
Ltac each_row H :=
  apply list_elem_of_In in H; simpl in H;
  repeat (destruct H as [<-|H]); try (exfalso; exact H).

(** What a caller sees of a call on a frame that does not hold exactly one
    row. *)
Lemma call_assign_tax_resolve (d out : DataFrame) :
  length d <> 1%nat -> resolve d = Some out ->
  call_assign_tax d = Some (d, out, false).
Proof.
  intros Hlen Hres.
  pose proof (assign_tax_resolve [d] 0%nat d eq_refl Hlen) as Hrun.
  rewrite Hres in Hrun. destruct Hrun as (l' & s' & Hrun & Hout & Hl' & Hold).
  unfold call_assign_tax. rewrite Hrun.
  rewrite (Hold 0%nat) by (simpl; lia). cbn [lookup list_lookup mbind option_bind].
  rewrite Hout. cbn [mbind option_bind]. do 2 f_equal.
  apply bool_decide_eq_false. simpl in Hl'. lia.
Qed.

Lemma filter_Permutation {A : Type} (P : A -> bool) (l1 l2 : list A) :
  Permutation l1 l2 -> Permutation (List.filter P l1) (List.filter P l2).
Proof.
  induction 1 as [|x l1 l2 _ IH|x y l|l1 l2 l3 _ IH1 _ IH2]; simpl.
  - constructor.
  - destruct (P x); [by constructor|done].
  - destruct (P x), (P y); try done. apply perm_swap.
  - by etransitivity.
Qed.

(** When one row alone of the frame lies inside an interval, it is the row
    emitted for it, whatever the order of the frame. *)
Lemma region_best_only (df d : DataFrame) (cov : Z * Z) (row : Row) :
  Permutation df d ->
  List.filter (within cov) (map (set_origin chimera) d) = [row] ->
  region_best df cov = [row].
Proof.
  intros Hperm Hd. unfold region_best.
  assert (H : List.filter (within cov) (map (set_origin chimera) df) = [row]).
  { apply Permutation_length_1_inv. rewrite <- Hd.
    apply filter_Permutation, Permutation_map. by symmetry. }
  by rewrite H.
Qed.

(* ------------------------------------------------------------------ *)
(** ** Full-length and over-length hits *)

(** C2. Given more than one hit, [assign_tax] sorts the hits by ascending
    [e_val]; if some hit has [alignment_length] equal to [query_length],
    the first such hit of the sorted frame is returned alone, tagged
    [single].  On the two full-length hits of [test_various_full_hits]
    (e-values 1.16e-28 and 0, query length 535) the hit with e-value 0 is
    the only row returned. *)
Theorem assign_tax_full_length :
  (forall (s : store) (l : loc) (d : DataFrame),
     s !! l = Some d ->
     (1 < length d)%nat ->
     (exists r, r ∈ d /\ alignment_length (hit r) = query_length (hit r)) ->
     exists before r after l' s',
       Permutation (quicksort qs by_e_val d) d /\
       StronglySorted (fun r1 r2 => (e_val (hit r1) <= e_val (hit r2))%Q)
         (quicksort qs by_e_val d) /\
       quicksort qs by_e_val d = before ++ r :: after /\
       alignment_length (hit r) = query_length (hit r) /\
       Forall (fun r' => alignment_length (hit r') <> query_length (hit r'))
         before /\
       assign_tax l s = Some (l', s') /\
       s' !! l' = Some [mkRow 0 (hit r) (Some single)]) /\
  call_assign_tax in_various_full_hits =
    Some (in_various_full_hits,
          [mkRow 0 (mkHit "k1_1" "GCF_002" 0 535 535 1 535) (Some single)],
          false).
Proof.
  split.
  2:{ apply call_assign_tax_resolve; [done|]. unfold resolve.
      rewrite (quicksort_unique by_e_val in_various_full_hits
                 [mkRow 1 (mkHit "k1_1" "GCF_002" 0 535 535 1 535) None;
                  mkRow 0 (mkHit "k1_1" "GCF_001"
                             (116 # 1000000000000000000000000000000)
                             535 535 1 535) None]).
      - reflexivity.
      - apply by_e_val_total.
      - apply by_e_val_trans.
      - intros x y Hx Hy H1 H2. each_row Hx; each_row Hy;
          first [reflexivity | vm_compute in H1, H2; congruence].
      - apply perm_swap.
      - repeat constructor. }
  intros s l d Hd Hlen (r0 & Hr0 & Hfull).
  destruct (sorted_by_e_val d) as [Hperm Hsorted].
  destruct (find_is_Some is_full_length (quicksort qs by_e_val d) r0)
    as [r Hr].
  { by apply quicksort_elem. }
  { unfold is_full_length. lia. }
  destruct (find_split _ _ _ Hr) as (before & after & Heq & Hr' & Hbefore).
  pose proof (assign_tax_resolve s l d Hd ltac:(lia)) as Hrun.
  unfold resolve in Hrun. rewrite Hr in Hrun.
  destruct Hrun as (l' & s' & Hrun & Hout & _).
  exists before, r, after, l', s'. repeat split; try done.
  - unfold is_full_length in Hr'. lia.
  - eapply Forall_impl; [exact Hbefore|]. intros r'. unfold is_full_length. lia.
Qed.

(** C3. Given more than one hit, none with [alignment_length] equal to
    [query_length]: if some hit has [alignment_length] strictly above
    [query_length], the first such hit of the frame sorted by ascending
    [e_val] is returned alone, tagged [single]. *)
Theorem assign_tax_over_length (s : store) (l : loc) (d : DataFrame) :
  s !! l = Some d ->
  (1 < length d)%nat ->
  (forall r, r ∈ d -> alignment_length (hit r) <> query_length (hit r)) ->
  (exists r, r ∈ d /\ query_length (hit r) < alignment_length (hit r)) ->
  exists before r after l' s',
    Permutation (quicksort qs by_e_val d) d /\
    StronglySorted (fun r1 r2 => (e_val (hit r1) <= e_val (hit r2))%Q)
      (quicksort qs by_e_val d) /\
    quicksort qs by_e_val d = before ++ r :: after /\
    query_length (hit r) < alignment_length (hit r) /\
    Forall (fun r' => alignment_length (hit r') <= query_length (hit r'))
      before /\
    assign_tax l s = Some (l', s') /\
    s' !! l' = Some [mkRow 0 (hit r) (Some single)].
Proof.
  intros Hd Hlen Hnofull (r0 & Hr0 & Hover).
  destruct (sorted_by_e_val d) as [Hperm Hsorted].
  destruct (find_is_Some is_over_length (quicksort qs by_e_val d) r0)
    as [r Hr].
  { by apply quicksort_elem. }
  { unfold is_over_length. lia. }
  destruct (find_split _ _ _ Hr) as (before & after & Heq & Hr' & Hbefore).
  pose proof (assign_tax_resolve s l d Hd ltac:(lia)) as Hrun.
  unfold resolve in Hrun.
  destruct (List.find is_full_length (quicksort qs by_e_val d)) as [rf|] eqn:Hf.
  { apply find_some in Hf as [Hin Hfull].
    apply list_elem_of_In, quicksort_elem, Hnofull in Hin.
    unfold is_full_length in Hfull. lia. }
  rewrite Hr in Hrun. destruct Hrun as (l' & s' & Hrun & Hout & _).
  exists before, r, after, l', s'. repeat split; try done.
  - unfold is_over_length in Hr'. lia.
  - eapply Forall_impl; [exact Hbefore|]. intros r'. unfold is_over_length. lia.
Qed.

Lemma find_none_all {A : Type} (P : A -> bool) (l : list A) :
  (forall x, x ∈ l -> P x = false) -> List.find P l = None.
Proof.
  intros H. destruct (List.find P l) as [x|] eqn:E; [|done].
  apply find_some in E as [Hin HP].
  apply list_elem_of_In, H in Hin. congruence.
Qed.

(** With every [alignment_length] below [query_length] neither scan of the
    sorted frame returns. *)
Lemma no_full_no_over (d : DataFrame) :
  (forall r, r ∈ d -> alignment_length (hit r) < query_length (hit r)) ->
  List.find is_full_length (quicksort qs by_e_val d) = None /\
  List.find is_over_length (quicksort qs by_e_val d) = None.
Proof.
  intros H. split; apply find_none_all; intros r Hr%quicksort_elem;
    apply H in Hr; unfold is_full_length, is_over_length; lia.
Qed.

(* ------------------------------------------------------------------ *)
(** ** One merged interval *)


(* ------------------------------------------------------------------ *)
(** ** The caller's frame *)

(** A frame that does not hold exactly one row is left as it was, and the
    frame returned is another object. *)
Lemma assign_tax_keeps_input (s s' : store) (l l' : loc) (d : DataFrame) :
  s !! l = Some d -> length d <> 1%nat ->
  assign_tax l s = Some (l', s') ->
  s' !! l = Some d /\ l' <> l.
Proof.
  intros Hd Hlen Hrun.
  pose proof (lookup_lt_Some _ _ _ Hd) as Hl.
  pose proof (assign_tax_resolve s l d Hd Hlen) as H.
  destruct (resolve d); [|congruence].
  destruct H as (l'' & s'' & Hrun' & _ & Hfresh & Hold).
  rewrite Hrun in Hrun'. injection Hrun' as <- <-.
  split; [|lia]. by rewrite Hold.
Qed.

(** C9 (the code departs from it). With exactly one hit, [assign_tax] adds
    the ['origin'] column to the caller's frame and returns that very
    frame: after the call the caller's rows carry [origin = single], and the
    reference returned is the one passed in. *)
Theorem assign_tax_single_hit_in_place (h : Hit) :
  call_assign_tax (make_raw_df [h]) =
    Some ([mkRow 0 h (Some single)], [mkRow 0 h (Some single)], true).
Proof. reflexivity. Qed.

(* ------------------------------------------------------------------ *)
(** ** No hits *)

(** C10. On a frame without rows [assign_tax] raises nothing and returns a
    frame without rows. *)
Theorem assign_tax_empty (s : store) (l : loc) :
  s !! l = Some [] ->
  exists l' s', assign_tax l s = Some (l', s') /\ s' !! l' = Some [].
Proof.
  intros Hd.
  pose proof (assign_tax_resolve s l [] Hd ltac:(done)) as Hrun.
  rewrite resolve_nil in Hrun.
  destruct Hrun as (l' & s' & Hrun & Hout & _).
  by exists l', s'.
Qed.

(* ------------------------------------------------------------------ *)
(** ** One step of [get_coverages] *)

Lemma np_where_from_lookup (flags : list bool) :
  forall k j, j ∈ np_where_from k flags ->
    exists i, j = (k + i)%nat /\ flags !! i = Some true.
Proof.
  induction flags as [|b flags IH]; intros k j Hj; simpl in Hj.
  - by apply elem_of_nil in Hj.
  - destruct b.
    + apply elem_of_cons in Hj as [->|Hj].
      * exists 0%nat. split; [lia|done].
      * destruct (IH _ _ Hj) as (i & -> & Hi). exists (S i). split; [lia|done].
    + destruct (IH _ _ Hj) as (i & -> & Hi). exists (S i). split; [lia|done].
Qed.

Lemma int_of_array_lookup (flags : list bool) (i : nat) :
  int_of_array (np_where flags) = Some i -> flags !! i = Some true.
Proof.
  unfold np_where. intros H.
  destruct (np_where_from 0 flags) as [|j [|? ?]] eqn:E; simplify_eq/=.
  destruct (np_where_from_lookup flags 0 i) as (i' & -> & Hi); [|done].
  rewrite E. left.
Qed.

Lemma overlapping_flags_lookup s coverages i :
  overlapping_flags s coverages !! i = Some true ->
  exists cov, coverages !! i = Some cov /\ in_span cov s.
Proof.
  revert i. induction coverages as [|c coverages IH]; intros [|i]; simpl;
    try done.
  - intros [= H]. exists c. split; [done|]. unfold in_span. lia.
  - apply IH.
Qed.

Lemma any_false_overlapping s coverages :
  any (overlapping_flags s coverages) = false ->
  Forall (fun cov => ~ in_span cov s) coverages.
Proof.
  unfold any, in_span. induction coverages as [|c coverages IH]; simpl;
    [constructor|].
  intros [H1 H2]%orb_false_iff. constructor; [|by apply IH].
  unfold id in H1. lia.
Qed.

(** A span either extends the end of an interval that holds its start, or
    is appended when no interval holds its start. *)
Lemma merge_region_cases coverages region coverages' :
  merge_region coverages region = Some coverages' ->
  (exists i cov,
     coverages !! i = Some cov /\ in_span cov (fst region) /\
     coverages' = <[i := (fst cov, Z.max (snd region) (snd cov))]> coverages) \/
  (Forall (fun cov => ~ in_span cov (fst region)) coverages /\
   coverages' = coverages ++ [region]).
Proof.
  unfold merge_region.
  destruct (any (overlapping_flags (fst region) coverages)) eqn:Hany.
  - destruct (int_of_array (np_where (overlapping_flags (fst region) coverages)))
      as [i|] eqn:Hi; [|done].
    apply int_of_array_lookup, overlapping_flags_lookup in Hi
      as (cov & Hcov & Hin).
    cbn [mbind option_bind]. rewrite Hcov. cbn [mbind option_bind].
    intros [= <-]. left. by exists i, cov.
  - intros [= <-]. right. split; [|done]. by apply any_false_overlapping.
Qed.

(** An invariant of the step is an invariant of the loop. *)
Lemma merge_regions_invariant (I : list (Z * Z) -> list (Z * Z) -> Prop) :
  (forall done_ coverages region coverages',
     I done_ coverages ->
     merge_region coverages region = Some coverages' ->
     I (done_ ++ [region]) coverages') ->
  forall regions done_ coverages coverages',
    I done_ coverages ->
    merge_regions regions coverages = Some coverages' ->
    I (done_ ++ regions) coverages'.
Proof.
  intros Hstep. induction regions as [|region regions IH];
    intros done_ coverages coverages' HI; simpl.
  - intros [= <-]. by rewrite app_nil_r.
  - destruct (merge_region coverages region) as [c1|] eqn:E; [|done].
    cbn [mbind option_bind]. intros H.
    rewrite (assoc_L (++) done_ [region] regions : done_ ++ region :: regions = _).
    eapply IH; [|exact H]. by eapply Hstep.
Qed.

Lemma has_span_mono regions regions' cov :
  has_span regions cov -> has_span (regions ++ regions') cov.
Proof.
  intros (sp & Hsp & H). exists sp. split; [|done].
  apply elem_of_app. by left.
Qed.

Lemma list_remove_subseteq x l c : c ∈ list_remove x l -> c ∈ l.
Proof.
  induction l as [|y l IH]; simpl; [done|].
  destruct (span_eqb x y).
  - by right.
  - intros [->|H]%elem_of_cons; [left|right; by apply IH].
Qed.

Lemma spans_inside_step done_ coverages region coverages' :
  spans_inside done_ coverages ->
  merge_region coverages region = Some coverages' ->
  spans_inside (done_ ++ [region]) coverages'.
Proof.
  intros (c0 & rest & -> & H0 & Hrest) Hstep.
  assert (Hself : forall cov, in_span cov (fst region) ->
            has_span (done_ ++ [region])
              (fst cov, Z.max (snd region) (snd cov))).
  { intros cov [H1 H2]. exists region. split.
    - apply elem_of_app. right. left.
    - simpl. lia. }
  assert (Hrest' : Forall (has_span (done_ ++ [region])) rest).
  { eapply Forall_impl; [exact Hrest|]. intros c. apply has_span_mono. }
  assert (H0' : c0 = (1, 1) \/ has_span (done_ ++ [region]) c0).
  { destruct H0 as [->|H0]; [by left|right; by apply has_span_mono]. }
  apply merge_region_cases in Hstep as [(i & cov & Hi & Hin & ->)|[_ ->]].
  - destruct i as [|i]; simpl in *.
    + injection Hi as ->. eexists _, rest. split; [done|].
      split; [right; by apply Hself|done].
    + exists c0, (<[i := (fst cov, Z.max (snd region) (snd cov))]> rest).
      split; [done|]. split; [done|].
      apply Forall_insert; [done|by apply Hself].
  - exists c0, (rest ++ [region]). split; [done|]. split; [done|].
    apply Forall_app. split; [done|]. constructor; [|constructor].
    exists region. split; [apply elem_of_app; right; left|lia].
Qed.

(** Every interval [get_coverages] returns has a span of the input inside
    it.  No order of the input is assumed. *)
Lemma get_coverages_has_span starts ends coverages :
  get_coverages starts ends = Some coverages ->
  Forall (has_span (zip starts ends)) coverages.
Proof.
  unfold get_coverages.
  destruct (merge_regions (zip starts ends) [(1, 1)]) as [acc|] eqn:E;
    [|done].
  cbn [mbind option_bind]. intros [= <-].
  destruct (merge_regions_invariant spans_inside spans_inside_step
              (zip starts ends) [] [(1, 1)] acc)
    as (c0 & rest & -> & H0 & Hrest); [|done|].
  { exists (1, 1), []. split; [done|]. split; [by left|constructor]. }
  simpl in H0, Hrest.
  destruct H0 as [->|H0].
  - simpl. done.
  - assert (Hall : Forall (has_span (zip starts ends)) (c0 :: rest))
      by (by constructor).
    destruct (list_contains (1, 1) (c0 :: rest)); [|done].
    apply Forall_forall. intros c Hc%list_remove_subseteq.
    by eapply (proj1 (Forall_forall _ _) Hall).
Qed.

(* ------------------------------------------------------------------ *)
(** ** Several merged intervals *)

Lemma zip_map_elem {A B C : Type} (f : A -> B) (g : A -> C) (l : list A) p :
  p ∈ zip (map f l) (map g l) -> exists x, x ∈ l /\ p = (f x, g x).
Proof.
  induction l as [|x l IH]; simpl; [intros H; by apply elem_of_nil in H|].
  intros [->|H]%elem_of_cons.
  - exists x. split; [left|done].
  - destruct (IH H) as (y & Hy & ->). exists y. split; [by right|done].
Qed.

Lemma within_spec cov r :
  within cov r = true <->
  fst cov <= start (hit r) /\ end_ (hit r) <= snd cov.
Proof. unfold within. lia. Qed.

(** An interval with a span of the start-sorted frame inside it yields
    exactly one row, the best of the hits inside it. *)
Lemma region_best_spec (d : DataFrame) (cov : Z * Z) :
  has_span (zip (map (fun r => start (hit r)) (start_sorted d))
                (map (fun r => end_ (hit r)) (start_sorted d))) cov ->
  exists row, region_best (quicksort qs by_e_val d) cov = [row] /\
    best_in_region d cov row.
Proof.
  intros (sp & Hsp & Hlo & Hhi).
  apply zip_map_elem in Hsp as (r1 & Hr1 & ->). simpl in Hlo, Hhi.
  unfold start_sorted in Hr1.
  apply quicksort_elem in Hr1.
  set (df := quicksort qs by_e_val d) in *.
  set (hits := List.filter (within cov) (map (set_origin chimera) df)).
  assert (Hhits : forall x, x ∈ hits <->
            exists r, r ∈ d /\ x = set_origin chimera r /\ within cov r = true).
  { intros x. unfold hits. rewrite list_elem_of_In, filter_In, in_map_iff.
    split.
    - intros [(r & <- & Hr) Hw]. exists r. repeat split; [|done].
      by apply list_elem_of_In, quicksort_elem in Hr.
    - intros (r & Hr & -> & Hw). split; [|done]. exists r. split; [done|].
      by apply list_elem_of_In, quicksort_elem. }
  destruct (first_best_is_Some by_e_val_alignment_length hits) as [row Hrow].
  { intros E. assert (H : set_origin chimera r1 ∈ hits).
    { apply Hhits. exists r1. repeat split.
      - by apply quicksort_elem in Hr1.
      - apply within_spec. done. }
    rewrite E in H. by apply elem_of_nil in H. }
  exists row. split.
  { unfold region_best, best_hit. fold hits.
    by rewrite take_1_stable_sort, Hrow. }
  apply first_best_min in Hrow as [Hin Hmin];
    [|apply by_e_val_alignment_length_total
     |apply by_e_val_alignment_length_trans].
  apply Hhits in Hin as (r & Hr & -> & Hw).
  split; [done|]. exists r. split; [done|]. split; [done|].
  split; [by apply within_spec|].
  intros r' Hr' Hlo' Hhi'.
  apply (by_e_val_alignment_length_spec (set_origin chimera r)
           (set_origin chimera r')).
  apply Hmin, Hhits. exists r'. repeat split; [done|].
  by apply within_spec.
Qed.

Lemma Forall2_flat_map_singleton {A B : Type} (P : A -> B -> Prop)
    (f : A -> list B) (l : list A) :
  Forall (fun a => exists b, f a = [b] /\ P a b) l ->
  Forall2 P l (flat_map f l).
Proof.
  induction 1 as [|a l (b & Hb & HP) _ IH]; simpl; [constructor|].
  rewrite Hb. by constructor.
Qed.

Lemma Forall2_reindex {A : Type} (P : A -> Row -> Prop) (l : list A)
    (d : DataFrame) :
  (forall a r i, P a r -> P a (mkRow i (hit r) (origin r))) ->
  Forall2 P l d -> Forall2 P l (reindex d).
Proof.
  intros HP H. unfold reindex.
  assert (Hgen : forall f : nat -> nat,
    Forall2 P l (imap (fun i r => mkRow (f i) (hit r) (origin r)) d)).
  { induction H as [|a r l d Hr _ IH]; intros f; simpl; [constructor|].
    constructor; [by apply HP|]. apply (IH (fun i => f (S i))). }
  apply (Hgen (fun i => i)).
Qed.

(** C1. Given more than one hit, every [alignment_length] below
    [query_length], and more than one interval from [get_coverages] on the
    start-sorted spans: [assign_tax] returns one row per interval, in the
    order of the intervals; the row of an interval is tagged [chimera] and
    is the hit that ranks best, by ascending [e_val] then descending
    [alignment_length], among the hits with [start >= interval.start] and
    [end <= interval.end]. *)
Theorem assign_tax_chimera
    (s : store) (l : loc) (d : DataFrame) (coverages : list (Z * Z)) :
  s !! l = Some d ->
  (1 < length d)%nat ->
  (forall r, r ∈ d -> alignment_length (hit r) < query_length (hit r)) ->
  coverages_of d = Some coverages ->
  (1 < length coverages)%nat ->
  exists out l' s',
    assign_tax l s = Some (l', s') /\
    s' !! l' = Some out /\
    Forall2 (best_in_region d) coverages out.
Proof.
  intros Hd Hlen Hshort Hcov Hmany.
  pose proof (assign_tax_resolve s l d Hd ltac:(lia)) as Hrun.
  unfold resolve in Hrun.
  destruct (no_full_no_over d Hshort) as [Hf Ho].
  rewrite Hf, Ho, Hcov in Hrun. cbn [mbind option_bind] in Hrun.
  assert (Hne : (length coverages =? 1)%nat = false) by (apply Nat.eqb_neq; lia).
  rewrite Hne in Hrun. destruct Hrun as (l' & s' & Hrun & Hout & _).
  eexists _, l', s'. split; [done|]. split; [done|].
  apply Forall2_reindex.
  { intros cov r i [Ho' Hr]. split; done. }
  apply Forall2_flat_map_singleton.
  eapply Forall_impl; [exact (get_coverages_has_span _ _ _ Hcov)|].
  intros cov. apply region_best_spec.
Qed.

(* ------------------------------------------------------------------ *)
(** ** Ties *)










(* ------------------------------------------------------------------ *)
(** ** [get_coverages] on spans in ascending order of start *)

Lemma overlapping_flags_before s pre :
  Forall (fun c => snd c < s) pre ->
  overlapping_flags s pre = repeat false (length pre).
Proof.
  induction 1 as [|c pre Hc _ IH]; simpl; [done|].
  rewrite IH. f_equal. lia.
Qed.

Lemma any_repeat_false n l : any (repeat false n ++ l) = any l.
Proof. induction n; simpl; done. Qed.

Lemma np_where_from_repeat_false n l :
  forall k, np_where_from k (repeat false n ++ l) = np_where_from (k + n) l.
Proof.
  induction n as [|n IH]; intros k; simpl.
  - by rewrite Nat.add_0_r.
  - rewrite IH. f_equal. lia.
Qed.

Lemma overlapping_flags_last s pre cur :
  Forall (fun c => snd c < s) pre ->
  fst cur <= s ->
  overlapping_flags s (pre ++ [cur]) =
    repeat false (length pre) ++ [s <=? snd cur].
Proof.
  intros Hpre Hcur. unfold overlapping_flags. rewrite map_app.
  fold (overlapping_flags s pre). rewrite (overlapping_flags_before _ _ Hpre).
  simpl. by replace (fst cur <=? s) with true by lia.
Qed.

(** With every earlier interval ending before the span starts and the last
    interval starting at or before it, the step looks at the last interval
    alone. *)
Lemma merge_region_last pre cur region :
  Forall (fun c => snd c < fst region) pre ->
  fst cur <= fst region ->
  merge_region (pre ++ [cur]) region =
    Some (if fst region <=? snd cur
          then pre ++ [(fst cur, Z.max (snd region) (snd cur))]
          else (pre ++ [cur]) ++ [region]).
Proof.
  intros Hpre Hcur. unfold merge_region.
  rewrite (overlapping_flags_last _ _ _ Hpre Hcur).
  rewrite any_repeat_false. unfold np_where.
  rewrite np_where_from_repeat_false.
  destruct (fst region <=? snd cur) eqn:E; simpl; [|done].
  rewrite list_lookup_middle by done. simpl.
  f_equal. rewrite insert_app_r_alt by lia.
  by rewrite Nat.sub_diag.
Qed.

Lemma StronglySorted_drop_second (a b : Z) (l : list Z) :
  StronglySorted Z.le (a :: b :: l) -> StronglySorted Z.le (a :: l).
Proof.
  intros H. apply StronglySorted_inv in H as [H1 H2].
  apply StronglySorted_inv in H1 as [H1 _].
  apply Forall_cons in H2 as [_ H2]. by constructor.
Qed.

(** The loop of [get_coverages] on ascending starts. *)
Lemma merge_regions_last regions :
  forall pre cur,
    Forall (fun c => snd c < fst cur) pre ->
    StronglySorted Z.le (fst cur :: map fst regions) ->
    merge_regions regions (pre ++ [cur]) = Some (pre ++ merge_from cur regions).
Proof.
  induction regions as [|region regions IH]; intros pre cur Hpre Hsorted;
    [done|].
  pose proof Hsorted as Hs.
  apply StronglySorted_inv in Hs as [Hs1 Hs2].
  apply Forall_cons in Hs2 as [Hle _]. cbn [map] in *.
  cbn [merge_regions merge_from].
  rewrite merge_region_last; [|eapply Forall_impl; [exact Hpre|]; simpl; lia
                              |done].
  cbn [mbind option_bind].
  destruct (fst region <=? snd cur) eqn:E.
  - apply (IH pre (fst cur, Z.max (snd region) (snd cur))); [done|].
    by apply StronglySorted_drop_second in Hsorted.
  - rewrite (IH (pre ++ [cur]) region).
    + by rewrite <- app_assoc.
    + apply Forall_app. split.
      * eapply Forall_impl; [exact Hpre|]. simpl. lia.
      * constructor; [lia|constructor].
    + done.
Qed.

Lemma ascending_inv (cur region : Z * Z) (regions : list (Z * Z)) :
  StronglySorted Z.le (fst cur :: map fst (region :: regions)) ->
  fst cur <= fst region /\
  StronglySorted Z.le (fst region :: map fst regions) /\
  StronglySorted Z.le (fst cur :: map fst regions).
Proof.
  intros H. split; [|split].
  - apply StronglySorted_inv in H as [_ H].
    by apply Forall_cons in H as [H _].
  - by apply StronglySorted_inv in H as [H _].
  - by apply StronglySorted_drop_second in H.
Qed.

Lemma merge_from_head regions :
  forall cur, exists b rest,
    merge_from cur regions = (fst cur, b) :: rest /\ snd cur <= b.
Proof.
  induction regions as [|region regions IH]; intros cur; simpl.
  - exists (snd cur), []. split; [by destruct cur|lia].
  - destruct (fst region <=? snd cur).
    + destruct (IH (fst cur, Z.max (snd region) (snd cur)))
        as (b & rest & -> & Hb).
      exists b, rest. split; [done|]. simpl in Hb. lia.
    + exists (snd cur), (merge_from region regions).
      split; [by destruct cur|lia].
Qed.

Lemma merge_from_starts regions :
  forall cur,
    StronglySorted Z.le (fst cur :: map fst regions) ->
    Forall (fun c => fst cur <= fst c) (merge_from cur regions).
Proof.
  induction regions as [|region regions IH]; intros cur Hasc; simpl.
  - constructor; [lia|constructor].
  - apply ascending_inv in Hasc as (Hle & Hasc1 & Hasc2).
    destruct (fst region <=? snd cur).
    + by apply (IH (fst cur, Z.max (snd region) (snd cur))).
    + constructor; [lia|].
      eapply Forall_impl; [exact (IH region Hasc1)|]. simpl. lia.
Qed.

(** The intervals come in ascending order, each ending before the next
    starts. *)
Lemma merge_from_apart regions :
  forall cur,
    StronglySorted Z.le (fst cur :: map fst regions) ->
    StronglySorted (fun a b => snd a < fst b) (merge_from cur regions).
Proof.
  induction regions as [|region regions IH]; intros cur Hasc; simpl.
  - repeat constructor.
  - apply ascending_inv in Hasc as (Hle & Hasc1 & Hasc2).
    destruct (fst region <=? snd cur) eqn:E.
    + by apply (IH (fst cur, Z.max (snd region) (snd cur))).
    + constructor; [by apply IH|].
      eapply Forall_impl; [exact (merge_from_starts _ region Hasc1)|].
      simpl. lia.
Qed.

(** The intervals after the first, in order, start where a subsequence of
    the spans starts, and hold these spans. *)
Lemma merge_from_origins regions :
  forall cur,
    exists origins,
      sublist origins regions /\
      Forall2 (fun cov o => fst cov = fst o /\ snd o <= snd cov)
        (tail (merge_from cur regions)) origins.
Proof.
  induction regions as [|region regions IH]; intros cur; simpl.
  - exists []. split; constructor.
  - destruct (fst region <=? snd cur).
    + destruct (IH (fst cur, Z.max (snd region) (snd cur)))
        as (origins & Hsub & H).
      exists origins. split; [by apply sublist_cons|done].
    + destruct (IH region) as (origins & Hsub & H).
      destruct (merge_from_head regions region) as (b & rest & Heq & Hb).
      rewrite Heq in *. simpl in *.
      exists (region :: origins). split; [by apply sublist_skip|].
      constructor; [simpl; lia|done].
Qed.

(** If the first interval ends beyond the interval the recursion starts
    from, a span that starts inside the latter ends beyond it. *)
Lemma merge_from_extended regions :
  forall cur b rest,
    merge_from cur regions = (fst cur, b) :: rest ->
    b <> snd cur ->
    exists sp, sp ∈ regions /\ fst sp <= snd cur /\ snd cur < snd sp.
Proof.
  induction regions as [|region regions IH]; intros [lo hi] b rest; simpl.
  - intros [= <- _] Hb. done.
  - destruct (fst region <=? hi) eqn:E.
    + intros Heq Hb.
      destruct (Z_le_gt_dec (snd region) hi) as [Hle|Hgt].
      * rewrite Z.max_r in Heq by done.
        destruct (IH (lo, hi) b rest Heq Hb) as (sp & Hsp & H).
        exists sp. split; [by right|done].
      * exists region. split; [left|lia].
    + intros [= <- _] Hb. done.
Qed.

(** Each interval holds exactly the positions of the spans that start
    inside it; the first one also holds the interval the recursion starts
    from. *)
Lemma merge_from_union regions :
  forall cur c0 rest,
    StronglySorted Z.le (fst cur :: map fst regions) ->
    merge_from cur regions = c0 :: rest ->
    (forall x, in_span c0 x <->
       in_span cur x \/
       exists sp, sp ∈ regions /\ in_span c0 (fst sp) /\ in_span sp x) /\
    (forall c, c ∈ rest ->
       forall x, in_span c x <->
         exists sp, sp ∈ regions /\ in_span c (fst sp) /\ in_span sp x).
Proof.
  induction regions as [|region regions IH]; intros cur c0 rest Hasc Heq.
  { simpl in Heq. injection Heq as <- <-. split.
    - intros x. split; [by left|]. intros [H|(sp & Hsp & _)]; [done|].
      by apply elem_of_nil in Hsp.
    - intros c Hc. by apply elem_of_nil in Hc. }
  apply ascending_inv in Hasc as (Hle & Hasc1 & Hasc2).
  simpl in Heq. destruct (fst region <=? snd cur) eqn:E.
  - set (cur' := (fst cur, Z.max (snd region) (snd cur))) in *.
    destruct (IH cur' c0 rest Hasc2 Heq) as [Ha Hb].
    destruct (merge_from_head regions cur') as (b & rest' & Heq' & Hb').
    pose proof (merge_from_apart regions cur' Hasc2) as Hapart.
    rewrite Heq in Heq', Hapart. injection Heq' as -> <-.
    apply StronglySorted_inv in Hapart as [_ Hapart].
    simpl in Hb', Hapart. split.
    + intros x. rewrite Ha. unfold cur', in_span in *. simpl. split.
      * intros [Hx|(sp & Hsp & H1 & H2)].
        -- destruct (Z_le_gt_dec x (snd cur)); [left; lia|].
           right. exists region. split; [left|]. lia.
        -- right. exists sp. split; [by right|done].
      * intros [Hx|(sp & Hsp & H1 & H2)]; [left; lia|].
        apply elem_of_cons in Hsp as [->|Hsp]; [left; lia|].
        right. by exists sp.
    + intros c Hc x. rewrite (Hb c Hc). split.
      * intros (sp & Hsp & H). exists sp. split; [by right|done].
      * intros (sp & Hsp & H1 & H2).
        apply elem_of_cons in Hsp as [->|Hsp]; [|by exists sp].
        pose proof (proj1 (Forall_forall _ _) Hapart c Hc) as Hc'.
        unfold in_span in *. simpl in *. lia.
  - injection Heq as <- <-.
    destruct (merge_from_head regions region) as (b & rest' & Heq' & Hb').
    destruct (IH region _ _ Hasc1 Heq') as [Ha Hb].
    pose proof (merge_from_apart regions region Hasc1) as Hapart.
    rewrite Heq' in Hapart.
    apply StronglySorted_inv in Hapart as [_ Hapart]. simpl in Hapart.
    assert (Hstarts : forall sp, sp ∈ region :: regions ->
              fst region <= fst sp).
    { intros sp [->|Hsp]%elem_of_cons; [lia|].
      apply StronglySorted_inv in Hasc1 as [_ Hall].
      apply (proj1 (Forall_forall _ _) Hall).
      apply list_elem_of_In, in_map, list_elem_of_In, Hsp. }
    split.
    + intros x. split; [by left|]. intros [H|(sp & Hsp & H1 & H2)]; [done|].
      apply Hstarts in Hsp. unfold in_span in *. lia.
    + rewrite Heq'. intros c [->|Hc]%elem_of_cons x.
      * rewrite Ha. unfold in_span in *. simpl. split.
        -- intros [Hx|(sp & Hsp & H1 & H2)].
           ++ exists region. split; [left|]. lia.
           ++ exists sp. split; [by right|done].
        -- intros (sp & Hsp & H1 & H2).
           apply elem_of_cons in Hsp as [->|Hsp]; [left; lia|].
           right. by exists sp.
      * rewrite (Hb c Hc). split.
        -- intros (sp & Hsp & H). exists sp. split; [by right|done].
        -- intros (sp & Hsp & H1 & H2).
           apply elem_of_cons in Hsp as [->|Hsp]; [|by exists sp].
           pose proof (proj1 (Forall_forall _ _) Hapart c Hc) as Hc'.
           unfold in_span in *. simpl in *. lia.
Qed.

Lemma zip_map_fst_snd {A B : Type} (l : list (A * B)) :
  zip (map fst l) (map snd l) = l.
Proof. induction l as [|[a b] l IH]; simpl; [done|]. by rewrite IH. Qed.

Lemma list_contains_false x l :
  Forall (fun c => fst x < fst c) l -> list_contains x l = false.
Proof.
  induction 1 as [|c l Hc _ IH]; simpl; [done|].
  rewrite IH, orb_false_r. unfold span_eqb. lia.
Qed.

Lemma apart_lookup (l : list (Z * Z)) :
  StronglySorted (fun a b => snd a < fst b) l ->
  forall i j a b, i <> j -> l !! i = Some a -> l !! j = Some b ->
    forall x, ~ (in_span a x /\ in_span b x).
Proof.
  intros Hl.
  assert (Hlt : forall i j a b, (i < j)%nat ->
            l !! i = Some a -> l !! j = Some b -> snd a < fst b).
  { induction Hl as [|c l Hl IH Hc]; intros i j a b Hij Hi Hj.
    - by rewrite lookup_nil in Hi.
    - destruct j as [|j]; [lia|]. destruct i as [|i]; simpl in *.
      + injection Hi as ->.
        apply (proj1 (Forall_forall _ _) Hc), list_elem_of_lookup. eauto.
      + apply (IH i j); [lia|done|done]. }
  intros i j a b Hij Hi Hj x [Ha Hb]. unfold in_span in *.
  destruct (Nat.lt_ge_cases i j) as [H|H].
  - pose proof (Hlt i j a b H Hi Hj). lia.
  - pose proof (Hlt j i b a ltac:(lia) Hj Hi). lia.
Qed.

(** On spans in ascending order of start, all starting at 1 or later,
    [get_coverages] raises nothing: it returns the intervals of
    [merge_from], without the seed if no span ending after 1 reached it. *)
Lemma get_coverages_ascending (spans : list (Z * Z)) :
  Sorted Z.le (map fst spans) ->
  Forall (fun sp => 1 <= fst sp) spans ->
  StronglySorted Z.le (1 :: map fst spans) /\
  exists b rest,
    merge_from (1, 1) spans = (1, b) :: rest /\ 1 <= b /\
    get_coverages (map fst spans) (map snd spans) =
      Some (if b =? 1 then rest else (1, b) :: rest).
Proof.
  intros Hsorted Hone.
  assert (Hasc : StronglySorted Z.le (1 :: map fst spans)).
  { constructor.
    - apply Sorted_StronglySorted; [|done]. intros x y z. lia.
    - apply Forall_forall. intros x Hx.
      apply list_elem_of_In, in_map_iff in Hx as (sp & <- & Hsp).
      by apply (proj1 (Forall_forall _ _) Hone), list_elem_of_In. }
  split; [done|].
  destruct (merge_from_head spans (1, 1)) as (b & rest & Heq & Hb).
  simpl in Heq, Hb. exists b, rest. split; [done|]. split; [done|].
  unfold get_coverages. rewrite zip_map_fst_snd.
  pose proof (merge_regions_last spans [] (1, 1) ltac:(constructor) Hasc)
    as Hloop.
  cbn [app] in Hloop. rewrite Hloop. cbn [mbind option_bind]. rewrite Heq.
  pose proof (merge_from_apart spans (1, 1) Hasc) as Hapart.
  rewrite Heq in Hapart. apply StronglySorted_inv in Hapart as [_ Hapart].
  assert (Hrest : list_contains (1, 1) rest = false).
  { apply list_contains_false. eapply Forall_impl; [exact Hapart|].
    simpl. lia. }
  cbn [list_contains existsb list_remove]. fold (list_contains (1, 1) rest).
  rewrite Hrest, orb_false_r. unfold span_eqb. cbn [fst snd].
  rewrite Z.eqb_refl, (Z.eqb_sym 1 b). cbn [andb].
  by destruct (b =? 1).
Qed.

(** The intervals returned on ascending, 1-based spans are the merged
    intervals of the spans. *)
Lemma merged_intervals_of_ascending (spans : list (Z * Z)) :
  Sorted Z.le (map fst spans) ->
  Forall (fun sp => 1 <= fst sp) spans ->
  exists out,
    get_coverages (map fst spans) (map snd spans) = Some out /\
    merged_intervals spans out.
Proof.
  intros Hsorted Hone.
  destruct (get_coverages_ascending spans Hsorted Hone)
    as (Hasc & b & rest & Heq & Hb & Hrun).
  eexists. split; [exact Hrun|].
  pose proof (merge_from_apart spans (1, 1) Hasc) as Hapart.
  rewrite Heq in Hapart.
  destruct (merge_from_union spans (1, 1) _ _ Hasc Heq) as [Hu0 Hu].
  destruct (Z.eqb_spec b 1) as [->|Hne].
  - (* the seed was never extended and is dropped *)
    apply StronglySorted_inv in Hapart as [Hapart _].
    split; [by apply apart_lookup|]. split; [|done].
    destruct (merge_from_origins spans (1, 1)) as (origins & Hsub & H).
    rewrite Heq in H. by exists origins.
  - split; [by apply apart_lookup|]. split.
    + destruct spans as [|sp0 spans']; [simpl in Heq; congruence|].
      simpl in Heq. destruct (fst sp0 <=? 1) eqn:E; [|congruence].
      apply Forall_cons in Hone as [Hone0 _].
      destruct (merge_from_origins spans' (1, Z.max (snd sp0) 1))
        as (origins & Hsub & H).
      destruct (merge_from_head spans' (1, Z.max (snd sp0) 1))
        as (b' & rest' & Heq' & Hb').
      rewrite Heq in Heq', H. injection Heq' as <- <-. simpl in H, Hb'.
      exists (sp0 :: origins). split; [by apply sublist_skip|].
      constructor; [simpl; lia|done].
    + intros cov [->|Hc]%elem_of_cons; [|by apply Hu].
      intros x. rewrite Hu0. split; [|by right].
      intros [Hx|H]; [|done].
      destruct (merge_from_extended spans (1, 1) b rest Heq Hne)
        as (sp & Hsp & H1 & H2).
      pose proof (proj1 (Forall_forall _ _) Hone sp Hsp) as H3.
      exists sp. split; [done|]. unfold in_span in *. simpl in *. lia.
Qed.

(** C5 (as amended). For spans in ascending order of start, all starting at
    position 1 or later, [get_coverages] returns intervals no two of which
    share a position, in the order in which their origin spans come in the
    input, each holding exactly the positions of the spans that start
    inside it. *)
Theorem get_coverages_merged_intervals (spans : list (Z * Z)) :
  Sorted Z.le (map fst spans) ->
  Forall (fun sp => 1 <= fst sp) spans ->
  exists out,
    get_coverages (map fst spans) (map snd spans) = Some out /\
    merged_intervals spans out.
Proof. apply merged_intervals_of_ascending. Qed.

Lemma get_coverages_merged_intervals_witness :
  Sorted Z.le (map fst [(1, 10); (20, 30)]) /\
  Forall (fun sp => 1 <= fst sp) [(1, 10); (20, 30)] /\
  exists out,
    get_coverages (map fst [(1, 10); (20, 30)]) (map snd [(1, 10); (20, 30)])
      = Some out /\
    merged_intervals [(1, 10); (20, 30)] out.
Proof.
  assert (H1 : Sorted Z.le (map fst [(1, 10); (20, 30)])).
  { simpl. repeat constructor. lia. }
  assert (H2 : Forall (fun sp => 1 <= fst sp) [(1, 10); (20, 30)]).
  { repeat constructor; simpl; lia. }
  split; [exact H1|]. split; [exact H2|].
  exact (get_coverages_merged_intervals [(1, 10); (20, 30)] H1 H2).
Defined.

(** C5 as stated, without the bound on the starts, fails: the spans
    [(0,0)] and [(1,5)] are in ascending order of start, and the interval
    of the second comes out before the interval of the first. *)
Lemma get_coverages_start_below_1 :
  Sorted Z.le (map fst [(0, 0); (1, 5)]) /\
  get_coverages (map fst [(0, 0); (1, 5)]) (map snd [(0, 0); (1, 5)])
    = Some [(1, 5); (0, 0)] /\
  ~ exists out,
      get_coverages (map fst [(0, 0); (1, 5)]) (map snd [(0, 0); (1, 5)])
        = Some out /\
      merged_intervals [(0, 0); (1, 5)] out.
Proof.
  split; [simpl; repeat constructor; lia|]. split; [reflexivity|].
  intros (out & Hout & _ & (origins & Hsub & H) & _).
  vm_compute in Hout. injection Hout as <-.
  apply Forall2_cons_inv_l in H as (o1 & origins1 & [H1 _] & H & ->).
  apply Forall2_cons_inv_l in H as (o2 & origins2 & [H2 _] & H & ->).
  apply Forall2_nil_inv_l in H as ->. simpl in H1, H2.
  apply sublist_cons_r in Hsub as [Hsub|(l' & Heq & Hsub)].
  - apply sublist_cons_r in Hsub as [Hsub|(l' & Heq & Hsub)].
    + by apply sublist_nil_r in Hsub.
    + injection Heq as -> <-. by apply sublist_nil_r in Hsub.
  - injection Heq as -> <-. simpl in H1. lia.
Qed.

(** A second way to fail below 1: the span [(1,3)] starts inside both the
    seed and the interval [(0,5)], and [int] of the two positions raises. *)
Example get_coverages_raises_below_1 :
  get_coverages [0; 1] [5; 3] = None.
Proof. reflexivity. Qed.

(* ------------------------------------------------------------------ *)
(** ** Positions covered *)

Lemma merge_from_holds_starts regions :
  forall cur,
    StronglySorted Z.le (fst cur :: map fst regions) ->
    forall sp, sp ∈ regions -> fst sp <= snd sp ->
      exists c, c ∈ merge_from cur regions /\ in_span c (fst sp).
Proof.
  induction regions as [|region regions IH]; intros cur Hasc sp Hsp Hwf.
  { by apply elem_of_nil in Hsp. }
  apply ascending_inv in Hasc as (Hle & Hasc1 & Hasc2). simpl.
  destruct (fst region <=? snd cur) eqn:E.
  - apply elem_of_cons in Hsp as [->|Hsp].
    + destruct (merge_from_head regions (fst cur, Z.max (snd region) (snd cur)))
        as (b & rest & -> & Hb).
      exists (fst cur, b). split; [left|]. unfold in_span. simpl in *. lia.
    + by apply (IH (fst cur, Z.max (snd region) (snd cur))).
  - apply elem_of_cons in Hsp as [->|Hsp].
    + destruct (merge_from_head regions region) as (b & rest & -> & Hb).
      exists (fst region, b). split; [right; left|].
      unfold in_span. simpl. lia.
    + destruct (IH region Hasc1 sp Hsp Hwf) as (c & Hc & H).
      exists c. split; [by right|done].
Qed.

(** On spans in ascending order of start, all starting at 1 or later, the
    intervals returned hold every position of every span, except that
    position 1 can be missing. *)
Lemma get_coverages_all_but_1 (spans out : list (Z * Z)) :
  Sorted Z.le (map fst spans) ->
  Forall (fun sp => 1 <= fst sp) spans ->
  get_coverages (map fst spans) (map snd spans) = Some out ->
  forall x, (exists sp, sp ∈ spans /\ in_span sp x) -> x <> 1 ->
    exists cov, cov ∈ out /\ in_span cov x.
Proof.
  intros Hsorted Hone Hrun x (sp & Hsp & Hx) Hx1.
  destruct (get_coverages_ascending spans Hsorted Hone)
    as (Hasc & b & rest & Heq & Hb & Hrun').
  rewrite Hrun in Hrun'. injection Hrun' as ->.
  destruct (merge_from_union spans (1, 1) _ _ Hasc Heq) as [Hu0 Hu].
  destruct (merge_from_holds_starts spans (1, 1) Hasc sp Hsp) as (c & Hc & Hin).
  { unfold in_span in Hx. lia. }
  rewrite Heq in Hc. apply elem_of_cons in Hc as [->|Hc].
  - assert (Hx0 : in_span (1, b) x) by (apply Hu0; right; by exists sp).
    destruct (Z.eqb_spec b 1) as [->|Hne].
    + unfold in_span in Hx0. simpl in Hx0. lia.
    + exists (1, b). split; [left|done].
  - exists c. split.
    + destruct (b =? 1); [done|by right].
    + apply (Hu c Hc). by exists sp.
Qed.

(** C6 (the code departs from it). The start-sorted spans [(1,1)],
    [(5,10)], [(20,30)] give two intervals, [(5,10)] and [(20,30)]: the
    span [(1,1)] has merged into the seed [(1,1)], which is removed, and
    position 1, which a span covers, is in no interval returned.  For the
    three hits with these spans [assign_tax] goes through the loop over
    the intervals and returns the two other hits. *)
Theorem get_coverages_drops_single_base_at_1 :
  get_coverages [1; 5; 20] [1; 10; 30] = Some [(5, 10); (20, 30)] /\
  (exists sp, sp ∈ zip [1; 5; 20] [1; 10; 30] /\ in_span sp 1) /\
  (forall cov, cov ∈ [(5, 10); (20, 30)] -> ~ in_span cov 1) /\
  coverages_of in_single_base_at_1 = Some [(5, 10); (20, 30)] /\
  call_assign_tax in_single_base_at_1 =
    Some (in_single_base_at_1,
          [mkRow 0 (mkHit "k1_1" "GCF_002" 0 100 6 5 10) (Some chimera);
           mkRow 1 (mkHit "k1_1" "GCF_003" 0 100 11 20 30) (Some chimera)],
          false).
Proof.
  assert (Hss : start_sorted in_single_base_at_1 = in_single_base_at_1).
  { unfold start_sorted. apply quicksort_unique.
    - apply by_start_total.
    - apply by_start_trans.
    - intros x y Hx%quicksort_elem Hy%quicksort_elem H1 H2.
      each_row Hx; each_row Hy;
        first [reflexivity | vm_compute in H1, H2; congruence].
    - symmetry. apply quicksort_perm.
    - repeat constructor. }
  assert (Hcov : coverages_of in_single_base_at_1 = Some [(5, 10); (20, 30)]).
  { unfold coverages_of. by rewrite Hss. }
  split; [reflexivity|]. split; [|split; [|split; [exact Hcov|]]].
  - exists (1, 1). split; [left|]. unfold in_span. simpl. lia.
  - intros cov Hcov'. unfold in_span.
    repeat (apply elem_of_cons in Hcov' as [->|Hcov']; [simpl; lia|]).
    by apply elem_of_nil in Hcov'.
  - apply call_assign_tax_resolve; [done|]. unfold resolve.
    destruct (no_full_no_over in_single_base_at_1) as [-> ->].
    { intros r Hr. each_row Hr; simpl; lia. }
    rewrite Hcov. cbn [mbind option_bind length Nat.eqb flat_map].
    rewrite (region_best_only _ in_single_base_at_1 (5, 10)
               (mkRow 1 (mkHit "k1_1" "GCF_002" 0 100 6 5 10) (Some chimera)))
      by (apply quicksort_perm || reflexivity).
    rewrite (region_best_only _ in_single_base_at_1 (20, 30)
               (mkRow 2 (mkHit "k1_1" "GCF_003" 0 100 11 20 30) (Some chimera)))
      by (apply quicksort_perm || reflexivity).
    reflexivity.
Qed.

(* ------------------------------------------------------------------ *)
(** ** [assign_tax] on 1-based coordinates *)

Lemma start_sorted_spec (d : DataFrame) :
  Permutation (start_sorted d) d /\
  StronglySorted (fun r1 r2 => start (hit r1) <= start (hit r2))
    (start_sorted d).
Proof.
  unfold start_sorted. split.
  - by rewrite !quicksort_perm.
  - eapply StronglySorted_weaken;
      [|apply quicksort_sorted; [apply by_start_total|apply by_start_trans]].
    intros r1 r2. unfold by_start. lia.
Qed.

Lemma StronglySorted_map {A B : Type} (R : B -> B -> Prop) (f : A -> B)
    (l : list A) :
  StronglySorted (fun x y => R (f x) (f y)) l -> StronglySorted R (map f l).
Proof.
  induction 1 as [|x l Hl IH Hx]; simpl; constructor; [done|].
  apply Forall_forall. intros y Hy.
  apply list_elem_of_In, in_map_iff in Hy as (z & <- & Hz).
  by apply (proj1 (Forall_forall _ _) Hx), list_elem_of_In.
Qed.

(** When every hit starts at position 1 or later, [get_coverages] raises
    nothing on the spans [assign_tax] hands to it, and its intervals are
    the merged intervals of these spans. *)
Lemma coverages_of_1_based (d : DataFrame) :
  (forall r, r ∈ d -> 1 <= start (hit r)) ->
  exists coverages,
    coverages_of d = Some coverages /\
    merged_intervals
      (map (fun r => (start (hit r), end_ (hit r))) (start_sorted d))
      coverages.
Proof.
  intros Hone. destruct (start_sorted_spec d) as [Hperm Hsorted].
  set (spans := map (fun r => (start (hit r), end_ (hit r))) (start_sorted d)).
  assert (Hfst : map fst spans = map (fun r => start (hit r)) (start_sorted d)).
  { unfold spans. rewrite map_map. by apply map_ext. }
  assert (Hsnd : map snd spans = map (fun r => end_ (hit r)) (start_sorted d)).
  { unfold spans. rewrite map_map. by apply map_ext. }
  unfold coverages_of. rewrite <- Hfst, <- Hsnd.
  apply merged_intervals_of_ascending.
  - rewrite Hfst. apply StronglySorted_Sorted.
    by apply (StronglySorted_map Z.le (fun r => start (hit r))).
  - apply Forall_forall. intros sp Hsp.
    apply list_elem_of_In, in_map_iff in Hsp as (r & <- & Hr). simpl.
    apply Hone. rewrite <- Hperm. by apply list_elem_of_In.
Qed.

(** X6. When every hit starts at position 1 or later, [assign_tax] raises
    nothing: it returns a frame, whatever the number of hits. *)
Lemma assign_tax_returns (s : store) (l : loc) (d : DataFrame) :
  s !! l = Some d ->
  (forall r, r ∈ d -> 1 <= start (hit r)) ->
  exists l' s' out, assign_tax l s = Some (l', s') /\ s' !! l' = Some out.
Proof.
  intros Hd Hone. destruct (decide (length d = 1%nat)) as [Hlen|Hlen].
  - exists l, (<[l := map (set_origin single) d]> s), (map (set_origin single) d).
    split; [by apply assign_tax_single|].
    apply list_lookup_insert_eq. by eapply lookup_lt_Some.
  - pose proof (assign_tax_resolve s l d Hd Hlen) as Hrun.
    assert (Hres : is_Some (resolve d)).
    { unfold resolve.
      destruct (List.find is_full_length _); [eauto|].
      destruct (List.find is_over_length _); [eauto|].
      destruct (coverages_of_1_based d Hone) as (coverages & -> & _).
      simpl. eauto. }
    destruct Hres as [out Hres]. rewrite Hres in Hrun.
    destruct Hrun as (l' & s' & Hrun & Hout & _). by exists l', s', out.
Qed.

(* ------------------------------------------------------------------ *)
(** ** The cases of [test_get_coverages] *)

(** C8. [get_coverages] on the three inputs of [test_get_coverages]:
    [(2,5),(3,6)] merge to [(2,6)]; [(2,10),(10,20)], which touch at one
    coordinate, merge to [(2,20)]; [(1,10),(20,30)], separated by a gap,
    stay apart. *)
Theorem get_coverages_examples :
  get_coverages [2; 3] [5; 6] = Some [(2, 6)] /\
  get_coverages [2; 10] [10; 20] = Some [(2, 20)] /\
  get_coverages [1; 20] [10; 30] = Some [(1, 10); (20, 30)].
Proof. repeat split; reflexivity. Qed.

(* ------------------------------------------------------------------ *)
(** ** More on [get_coverages] *)

Lemma span_eqb_spec a b : span_eqb a b = true <-> a = b.
Proof.
  unfold span_eqb. destruct a, b. simpl.
  rewrite andb_true_iff, !Z.eqb_eq. split; [intros [-> ->]|intros [= -> ->]]; done.
Qed.

Lemma list_remove_length x l :
  list_contains x l = true -> S (length (list_remove x l)) = length l.
Proof.
  induction l as [|y l IH]; simpl; [done|].
  destruct (span_eqb x y); simpl; [done|]. intros H. by rewrite IH.
Qed.

Lemma count_step (done_ coverages : list (Z * Z)) region coverages' :
  (exists c0 rest, coverages = c0 :: rest /\
     (length rest <= length done_)%nat /\
     (c0 <> (1, 1) -> (S (length rest) <= length done_)%nat)) ->
  merge_region coverages region = Some coverages' ->
  exists c0 rest, coverages' = c0 :: rest /\
    (length rest <= length (done_ ++ [region]))%nat /\
    (c0 <> (1, 1) -> (S (length rest) <= length (done_ ++ [region]))%nat).
Proof.
  intros (c0 & rest & -> & H1 & H2) Hstep. rewrite length_app. simpl.
  apply merge_region_cases in Hstep as [(i & cov & Hi & Hin & ->)|[_ ->]].
  - destruct i as [|i]; simpl.
    + eexists _, rest. split; [done|]. lia.
    + eexists c0, _. split; [done|]. rewrite length_insert.
      split; [lia|]. intros H. apply H2 in H. lia.
  - exists c0, (rest ++ [region]). split; [done|].
    rewrite length_app. simpl. split; [lia|]. intros H. apply H2 in H. lia.
Qed.

Lemma get_coverages_length (starts ends : list Z) (out : list (Z * Z)) :
  get_coverages starts ends = Some out ->
  (length out <= length (zip starts ends))%nat.
Proof.
  intros Hrun. unfold get_coverages in Hrun.
  destruct (merge_regions (zip starts ends) [(1, 1)]) as [acc|] eqn:E;
    [|done].
  cbn [mbind option_bind] in Hrun. injection Hrun as <-.
  destruct (merge_regions_invariant
              (fun done_ coverages =>
                 exists c0 rest, coverages = c0 :: rest /\
                   (length rest <= length done_)%nat /\
                   (c0 <> (1, 1) -> (S (length rest) <= length done_)%nat))
              count_step (zip starts ends) [] [(1, 1)] acc)
    as (c0 & rest & -> & H1 & H2); [|done|].
  { exists (1, 1), []. split; [done|]. split; [done|]. by intros []. }
  simpl in H1, H2.
  destruct (list_contains (1, 1) (c0 :: rest)) eqn:Hc.
  - apply list_remove_length in Hc. cbn [length] in Hc. lia.
  - simpl in Hc. apply orb_false_iff in Hc as [Hc _]. simpl.
    apply H2. intros ->. by rewrite (proj2 (span_eqb_spec _ _)) in Hc.
Qed.

(** X1. Whatever the spans and their order, when [get_coverages] returns,
    it returns at most as many intervals as there are spans, and every
    interval has some span of the input inside it. *)
Theorem get_coverages_no_more_than_spans (starts ends : list Z)
    (out : list (Z * Z)) :
  get_coverages starts ends = Some out ->
  (length out <= length (zip starts ends))%nat /\
  Forall (has_span (zip starts ends)) out.
Proof.
  intros Hrun. split.
  - by apply get_coverages_length.
  - by eapply get_coverages_has_span.
Qed.

Lemma get_coverages_no_more_than_spans_witness :
  get_coverages [2; 3; 9] [5; 6; 12] = Some [(2, 6); (9, 12)] /\
  (length [(2, 6); (9, 12)]%Z <= length (zip [2; 3; 9] [5; 6; 12])%Z)%nat /\
  Forall (has_span (zip [2; 3; 9] [5; 6; 12])) [(2, 6); (9, 12)].
Proof.
  split; [reflexivity|].
  apply (get_coverages_no_more_than_spans [2; 3; 9] [5; 6; 12]).
  reflexivity.
Defined.

(** X2. Two spans [(a,b)] and [(c,d)] with [1 <= a <= c], the first
    starting after 1 or ending after 1: they merge into one interval
    exactly when the second starts at or before the end of the first, and
    the merged interval ends at the larger of the two ends. *)
Theorem get_coverages_two_spans (a b c d : Z) :
  1 <= a -> a <= c -> 1 < a \/ 1 < b ->
  get_coverages [a; c] [b; d] =
    Some (if c <=? b then [(a, Z.max d b)] else [(a, b); (c, d)]).
Proof.
  intros Ha Hac Hab.
  destruct (get_coverages_ascending [(a, b); (c, d)]) as (_ & b0 & rest & Heq & _ & Hrun).
  { simpl. repeat constructor. done. }
  { repeat constructor; simpl; lia. }
  simpl in Hrun. rewrite Hrun. clear Hrun. f_equal.
  simpl in Heq.
  destruct (Z.leb_spec a 1) as [Ha1|Ha1].
  - assert (a = 1) as -> by lia. assert (Hb : Z.max b 1 = b) by lia.
    rewrite Hb in Heq. destruct (c <=? b) eqn:E.
    + injection Heq as <- <-.
      destruct (Z.eqb_spec (Z.max d b) 1); [lia|done].
    + injection Heq as <- <-. destruct (Z.eqb_spec b 1); [lia|done].
  - destruct (c <=? b); by injection Heq as <- <-.
Qed.

Lemma get_coverages_two_spans_witness :
  1 <= 2 /\ 2 <= 10 /\ (1 < 2 \/ 1 < 10) /\
  get_coverages [2; 10] [10; 20] =
    Some (if 10 <=? 10 then [(2, Z.max 20 10)] else [(2, 10); (10, 20)]).
Proof.
  split; [lia|]. split; [lia|]. split; [left; lia|].
  apply (get_coverages_two_spans 2 10 10 20); [lia|lia|left; lia].
Defined.

Lemma zip_unpaired_l {A B : Type} (l extra : list A) (k : list B) :
  length l = length k -> zip (l ++ extra) k = zip l k.
Proof.
  revert k. induction l as [|x l IH]; intros [|y k]; simpl; try done.
  - by destruct extra.
  - intros [= H]. by rewrite IH.
Qed.

Lemma zip_unpaired_r {A B : Type} (l : list A) (k extra : list B) :
  length l = length k -> zip l (k ++ extra) = zip l k.
Proof.
  revert k. induction l as [|x l IH]; intros [|y k]; simpl; try done.
  intros [= H]. by rewrite IH.
Qed.

(** X3. [zip] stops at the shorter column: starts or ends beyond the
    length of the other column are ignored, nothing raises. *)
Theorem get_coverages_ignores_unpaired (starts ends extra : list Z) :
  length starts = length ends ->
  get_coverages (starts ++ extra) ends = get_coverages starts ends /\
  get_coverages starts (ends ++ extra) = get_coverages starts ends.
Proof.
  intros Hlen. unfold get_coverages.
  by rewrite zip_unpaired_l, zip_unpaired_r.
Qed.

Lemma get_coverages_ignores_unpaired_witness :
  length [2; 3] = length [5; 6] /\
  get_coverages ([2; 3] ++ [50]) [5; 6] = get_coverages [2; 3] [5; 6] /\
  get_coverages [2; 3] ([5; 6] ++ [50]) = get_coverages [2; 3] [5; 6].
Proof.
  split; [reflexivity|].
  apply (get_coverages_ignores_unpaired [2; 3] [5; 6] [50]). reflexivity.
Defined.

(** X4. On spans in ascending order of start, all starting at 1 or later,
    a position is in a returned interval exactly when a span covers it,
    with one exception: position 1 is in a returned interval only if some
    span starting at 1 ends after 1. *)
Theorem get_coverages_positions (spans : list (Z * Z)) :
  Sorted Z.le (map fst spans) ->
  Forall (fun sp => 1 <= fst sp) spans ->
  exists out,
    get_coverages (map fst spans) (map snd spans) = Some out /\
    forall x,
      (exists cov, cov ∈ out /\ in_span cov x) <->
      (exists sp, sp ∈ spans /\ in_span sp x) /\
      (x = 1 -> exists sp, sp ∈ spans /\ fst sp = 1 /\ 1 < snd sp).
Proof.
  intros Hsorted Hone.
  destruct (get_coverages_ascending spans Hsorted Hone)
    as (Hasc & b & rest & Heq & Hb & Hrun).
  eexists. split; [exact Hrun|]. intros x.
  destruct (merge_from_union spans (1, 1) _ _ Hasc Heq) as [Hu0 Hu].
  pose proof (merge_from_apart spans (1, 1) Hasc) as Hapart.
  rewrite Heq in Hapart. apply StronglySorted_inv in Hapart as [_ Hapart].
  simpl in Hapart.
  assert (Hrest : forall c, c ∈ rest -> 1 < fst c).
  { intros c Hc. pose proof (proj1 (Forall_forall _ _) Hapart c Hc) as H.
    simpl in H. lia. }
  split.
  - intros (cov & Hcov & Hx).
    assert (Hcase : cov ∈ rest \/ (cov = (1, b) /\ b <> 1)).
    { destruct (Z.eqb_spec b 1); [by left|].
      apply elem_of_cons in Hcov as [->|Hcov]; [by right|by left]. }
    destruct Hcase as [Hc|[-> Hne]].
    + split.
      * apply (Hu cov Hc) in Hx as (sp & Hsp & _ & H). by exists sp.
      * intros ->. apply Hrest in Hc. unfold in_span in Hx. lia.
    + destruct (merge_from_extended spans (1, 1) b rest Heq Hne)
        as (sp & Hsp & H1 & H2).
      pose proof (proj1 (Forall_forall _ _) Hone sp Hsp) as H3.
      simpl in H1, H2, H3. split.
      * apply Hu0 in Hx as [Hx|(sp' & Hsp' & _ & H)]; [|by exists sp'].
        exists sp. split; [done|]. unfold in_span in *. simpl in *. lia.
      * intros _. exists sp. split; [done|]. lia.
  - intros [(sp & Hsp & Hx) H1].
    destruct (decide (x = 1)) as [->|Hx1].
    + destruct (H1 eq_refl) as (sp' & Hsp' & Hs' & He').
      destruct (merge_from_holds_starts spans (1, 1) Hasc sp' Hsp')
        as (c & Hc & Hin); [lia|].
      rewrite Heq in Hc. apply elem_of_cons in Hc as [->|Hc].
      * assert (Hend : in_span (1, b) (snd sp')).
        { apply Hu0. right. exists sp'. split; [done|]. split; [done|].
          unfold in_span. lia. }
        unfold in_span in Hend. simpl in Hend.
        exists (1, b). split.
        -- destruct (Z.eqb_spec b 1); [lia|left].
        -- unfold in_span. simpl. lia.
      * apply Hrest in Hc. unfold in_span in Hin. lia.
    + eapply get_coverages_all_but_1; eauto.
Qed.

Lemma get_coverages_positions_witness :
  Sorted Z.le (map fst [(1, 1); (5, 10)]) /\
  Forall (fun sp => 1 <= fst sp) [(1, 1); (5, 10)] /\
  exists out,
    get_coverages (map fst [(1, 1); (5, 10)]) (map snd [(1, 1); (5, 10)])
      = Some out /\
    forall x,
      (exists cov, cov ∈ out /\ in_span cov x) <->
      (exists sp, sp ∈ [(1, 1); (5, 10)] /\ in_span sp x) /\
      (x = 1 -> exists sp, sp ∈ [(1, 1); (5, 10)] /\ fst sp = 1 /\ 1 < snd sp).
Proof.
  assert (H1 : Sorted Z.le (map fst [(1, 1); (5, 10)])).
  { simpl. repeat constructor. lia. }
  assert (H2 : Forall (fun sp => 1 <= fst sp) [(1, 1); (5, 10)]).
  { repeat constructor; simpl; lia. }
  split; [exact H1|]. split; [exact H2|].
  exact (get_coverages_positions [(1, 1); (5, 10)] H1 H2).
Defined.

Lemma merge_from_unchanged (l : list (Z * Z)) :
  forall cur,
    StronglySorted (fun a b => snd a < fst b) (cur :: l) ->
    merge_from cur l = cur :: l.
Proof.
  induction l as [|region l IH]; intros cur H; simpl; [done|].
  apply StronglySorted_inv in H as [Hl Hcur].
  apply Forall_cons in Hcur as [Hlt _].
  destruct (Z.leb_spec (fst region) (snd cur)); [lia|].
  by rewrite IH.
Qed.

Lemma merge_from_starts_sorted regions :
  forall cur,
    StronglySorted Z.le (fst cur :: map fst regions) ->
    StronglySorted Z.le (map fst (merge_from cur regions)).
Proof.
  induction regions as [|region regions IH]; intros cur Hasc; simpl.
  - repeat constructor.
  - apply ascending_inv in Hasc as (Hle & Hasc1 & Hasc2).
    destruct (fst region <=? snd cur).
    + by apply (IH (fst cur, Z.max (snd region) (snd cur))).
    + simpl. constructor; [by apply IH|].
      apply Forall_forall. intros x Hx.
      apply list_elem_of_In, in_map_iff in Hx as (c & <- & Hc).
      pose proof (proj1 (Forall_forall _ _)
                    (merge_from_starts regions region Hasc1) c
                    (proj2 (list_elem_of_In _ _) Hc)) as H.
      simpl in H. lia.
Qed.

(** X5. The intervals returned on ascending, 1-based spans are a fixed
    point: handed back to [get_coverages] as spans, they are returned as
    they are. *)
Theorem get_coverages_idempotent (spans out : list (Z * Z)) :
  Sorted Z.le (map fst spans) ->
  Forall (fun sp => 1 <= fst sp) spans ->
  get_coverages (map fst spans) (map snd spans) = Some out ->
  get_coverages (map fst out) (map snd out) = Some out.
Proof.
  intros Hsorted Hone Hrun.
  destruct (get_coverages_ascending spans Hsorted Hone)
    as (Hasc & b & rest & Heq & Hb & Hrun').
  rewrite Hrun in Hrun'. injection Hrun' as Hout.
  pose proof (merge_from_apart spans (1, 1) Hasc) as Hapart.
  pose proof (merge_from_starts_sorted spans (1, 1) Hasc) as Hstarts.
  pose proof (merge_from_starts spans (1, 1) Hasc) as Hge.
  rewrite Heq in Hapart, Hstarts, Hge. simpl in Hstarts, Hge.
  assert (Hsorted' : Sorted Z.le (map fst out)).
  { apply StronglySorted_Sorted. rewrite Hout.
    destruct (b =? 1); [|done]. by apply StronglySorted_inv in Hstarts as [? _]. }
  assert (Hone' : Forall (fun sp => 1 <= fst sp) out).
  { rewrite Hout. destruct (b =? 1); [|done]. by apply Forall_cons in Hge as [_ ?]. }
  destruct (get_coverages_ascending out Hsorted' Hone')
    as (_ & b' & rest' & Heq' & _ & ->).
  f_equal. rewrite Hout in Heq' |- *.
  destruct (Z.eqb_spec b 1) as [->|Hne].
  - rewrite (merge_from_unchanged rest (1, 1) Hapart) in Heq'.
    injection Heq' as <- <-. done.
  - simpl in Heq'. replace (Z.max b 1) with b in Heq' by lia.
    rewrite (merge_from_unchanged rest (1, b) Hapart) in Heq'.
    injection Heq' as <- <-. by destruct (Z.eqb_spec b 1).
Qed.

Lemma get_coverages_idempotent_witness :
  Sorted Z.le (map fst [(1, 4); (3, 9); (20, 30)]) /\
  Forall (fun sp => 1 <= fst sp) [(1, 4); (3, 9); (20, 30)] /\
  get_coverages (map fst [(1, 4); (3, 9); (20, 30)])
    (map snd [(1, 4); (3, 9); (20, 30)]) = Some [(1, 9); (20, 30)] /\
  get_coverages (map fst [(1, 9); (20, 30)]) (map snd [(1, 9); (20, 30)])
    = Some [(1, 9); (20, 30)].
Proof.
  assert (H1 : Sorted Z.le (map fst [(1, 4); (3, 9); (20, 30)])).
  { simpl. repeat constructor; lia. }
  assert (H2 : Forall (fun sp => 1 <= fst sp) [(1, 4); (3, 9); (20, 30)]).
  { repeat constructor; simpl; lia. }
  split; [exact H1|]. split; [exact H2|]. split; [reflexivity|].
  exact (get_coverages_idempotent [(1, 4); (3, 9); (20, 30)]
           [(1, 9); (20, 30)] H1 H2 eq_refl).
Defined.

(* ------------------------------------------------------------------ *)
(** ** More on [assign_tax] *)

(** X7. For a frame that does not hold exactly one row, [assign_tax]
    returns a reference to a frame that was not in the store, and leaves
    every frame that was in the store, the caller's among them, as it was. *)
Theorem assign_tax_other_frames (s : store) (l : loc) (d : DataFrame) :
  s !! l = Some d -> length d <> 1%nat ->
  match assign_tax l s with
  | Some (l', s') =>
      (length s <= l')%nat /\
      forall j, (j < length s)%nat -> s' !! j = s !! j
  | None => True
  end.
Proof.
  intros Hd Hlen. pose proof (assign_tax_resolve s l d Hd Hlen) as H.
  destruct (resolve d).
  - destruct H as (l' & s' & -> & _ & H1 & H2). done.
  - by rewrite H.
Qed.

(** X8. For a frame of one row, whatever its index label and whether or
    not it has an ['origin'] column, [assign_tax] returns the reference it
    was given; the frame then holds that row with the same label and hit
    and [origin = single], and no other frame of the store has changed. *)
Theorem assign_tax_one_row (s : store) (l : loc) (r : Row) :
  s !! l = Some [r] ->
  exists s',
    assign_tax l s = Some (l, s') /\
    s' !! l = Some [mkRow (label r) (hit r) (Some single)] /\
    length s' = length s /\
    forall j, j <> l -> s' !! j = s !! j.
Proof.
  intros Hd. eexists. split; [by apply (assign_tax_single s l [r])|].
  split; [|split].
  - apply list_lookup_insert_eq. by eapply lookup_lt_Some.
  - apply length_insert.
  - intros j Hj. by apply list_lookup_insert_ne.
Qed.

Lemma get_coverages_two_matches (a b d : Z) :
  a < 1 -> 1 <= b -> get_coverages [a; 1] [b; d] = None.
Proof.
  intros Ha Hb. unfold get_coverages. simpl.
  unfold merge_region at 2. simpl.
  destruct (Z.leb_spec 1 a); [lia|]. simpl.
  unfold merge_region. simpl.
  destruct (Z.leb_spec a 1); [|lia].
  destruct (Z.leb_spec 1 b); [|lia]. done.
Qed.

(** X9. Two hits, each shorter than the query, one starting before
    position 1 and reaching it, the other starting at 1: the start of the
    second lies in the seed interval and in the interval of the first,
    [int] gets two positions, and [assign_tax] raises. *)
Theorem assign_tax_raises_below_1
    (s : store) (l : loc) (r1 r2 : Row) (d : DataFrame) :
  d = [r1; r2] \/ d = [r2; r1] ->
  s !! l = Some d ->
  start (hit r1) < 1 -> 1 <= end_ (hit r1) ->
  start (hit r2) = 1 ->
  alignment_length (hit r1) < query_length (hit r1) ->
  alignment_length (hit r2) < query_length (hit r2) ->
  assign_tax l s = None.
Proof.
  intros Hd Hs H1 H1' H2 Hq1 Hq2.
  assert (Hlen : length d <> 1%nat) by (by destruct Hd as [->| ->]).
  pose proof (assign_tax_resolve s l d Hs Hlen) as Hrun.
  assert (Hres : resolve d = None); [|by rewrite Hres in Hrun].
  unfold resolve.
  destruct (no_full_no_over d) as [-> ->].
  { intros r Hr. destruct Hd as [->| ->];
      repeat (apply elem_of_cons in Hr as [->|Hr]; [done|]);
      by apply elem_of_nil in Hr. }
  assert (Hss : start_sorted d = [r1; r2]).
  { assert (H12 : by_start r1 r2 = true) by (unfold by_start; lia).
    assert (H21 : by_start r2 r1 = false) by (unfold by_start; lia).
    assert (Hrows : forall x, x ∈ d -> x = r1 \/ x = r2).
    { intros x Hx. destruct Hd as [->| ->];
        repeat (apply elem_of_cons in Hx as [->|Hx]; [by (left + right)|]);
        by apply elem_of_nil in Hx. }
    unfold start_sorted. apply quicksort_unique.
    - apply by_start_total.
    - apply by_start_trans.
    - intros x y Hx%quicksort_elem Hy%quicksort_elem Hxy Hyx.
      destruct (Hrows x Hx) as [->| ->], (Hrows y Hy) as [->| ->];
        congruence.
    - rewrite quicksort_perm. destruct Hd as [->| ->]; [done|apply perm_swap].
    - repeat constructor. done. }
  unfold coverages_of. rewrite Hss. simpl. rewrite H2.
  by rewrite get_coverages_two_matches.
Qed.

Lemma Forall2_right_elem {A B : Type} (P : A -> B -> Prop) l k :
  Forall2 P l k -> forall y, y ∈ k -> exists x, x ∈ l /\ P x y.
Proof.
  induction 1 as [|x y l k Hxy _ IH]; intros z Hz.
  - by apply elem_of_nil in Hz.
  - apply elem_of_cons in Hz as [->|Hz].
    + exists x. split; [left|done].
    + destruct (IH z Hz) as (x' & Hx' & H). exists x'. split; [by right|done].
Qed.

Lemma length_zip_map {A B C : Type} (f : A -> B) (g : A -> C) (l : list A) :
  length (zip (map f l) (map g l)) = length l.
Proof. induction l; simpl; [done|]. by f_equal. Qed.

(** The rows of the loop over the intervals, before [reset_index]. *)
Lemma flat_map_region_best (d : DataFrame) (coverages : list (Z * Z)) :
  coverages_of d = Some coverages ->
  Forall2 (best_in_region d) coverages
    (flat_map (region_best (quicksort qs by_e_val d)) coverages) /\
  (length coverages <= length d)%nat.
Proof.
  intros Hcov. split.
  - apply Forall2_flat_map_singleton.
    eapply Forall_impl; [exact (get_coverages_has_span _ _ _ Hcov)|].
    intros cov. apply region_best_spec.
  - apply get_coverages_length in Hcov. rewrite length_zip_map in Hcov.
    unfold start_sorted in Hcov. by rewrite !quicksort_length in Hcov.
Qed.

Lemma first_match_elem (P : Row -> bool) (d : DataFrame) (r : Row) :
  List.find P (quicksort qs by_e_val d) = Some r -> r ∈ d.
Proof.
  intros [H _]%find_some. by apply list_elem_of_In, quicksort_elem in H.
Qed.

(** X10. Whenever [assign_tax] returns, the frame returned has at most as
    many rows as the input, every row of it carries the columns of a hit
    of the input, and it is of one of three shapes: no row; one row tagged
    [single]; two rows or more, all tagged [chimera]. *)
Theorem assign_tax_output_shape (s : store) (l : loc) (d : DataFrame) :
  s !! l = Some d ->
  match assign_tax l s with
  | Some (l', s') =>
      exists out,
        s' !! l' = Some out /\
        (length out <= length d)%nat /\
        (forall row, row ∈ out -> exists r, r ∈ d /\ hit row = hit r) /\
        (out = [] \/
         (exists row, out = [row] /\ origin row = Some single) \/
         ((2 <= length out)%nat /\
          forall row, row ∈ out -> origin row = Some chimera))
  | None => True
  end.
Proof.
  intros Hd. destruct (decide (length d = 1%nat)) as [Hlen|Hlen].
  { rewrite (assign_tax_single s l d Hd Hlen).
    destruct d as [|r [|? ?]]; try done.
    exists [set_origin single r]. split.
    - apply list_lookup_insert_eq. by eapply lookup_lt_Some.
    - split; [done|]. split.
      + intros row ->%list_elem_of_singleton. exists r. split; [left|done].
      + right. left. by exists (set_origin single r). }
  pose proof (assign_tax_resolve s l d Hd Hlen) as Hrun.
  destruct (resolve d) as [out|] eqn:Hres; [|by rewrite Hrun].
  destruct Hrun as (l' & s' & -> & Hout & _).
  exists out. split; [done|]. clear Hout Hd s l l' s'.
  assert (Hone : forall r, List.find is_full_length (quicksort qs by_e_val d) = Some r
                   \/ List.find is_over_length (quicksort qs by_e_val d) = Some r ->
            out = make_sorted_df [(hit r, single)] ->
            (length out <= length d)%nat /\
            (forall row, row ∈ out -> exists r, r ∈ d /\ hit row = hit r) /\
            (out = [] \/
             (exists row, out = [row] /\ origin row = Some single) \/
             ((2 <= length out)%nat /\
              forall row, row ∈ out -> origin row = Some chimera))).
  { intros r Hr ->.
    assert (Hin : r ∈ d) by (destruct Hr; by eapply first_match_elem).
    split; [|split].
    - simpl. destruct d; [by apply elem_of_nil in Hin|simpl; lia].
    - intros row ->%list_elem_of_singleton. by exists r.
    - right. left. by eexists. }
  unfold resolve in Hres.
  destruct (List.find is_full_length _) as [r|] eqn:Hf.
  { injection Hres as <-. apply (Hone r); [by left|done]. }
  destruct (List.find is_over_length _) as [r|] eqn:Ho.
  { injection Hres as <-. apply (Hone r); [by right|done]. }
  clear Hone.
  destruct (coverages_of d) as [coverages|] eqn:Hcov; [|done].
  cbn [mbind option_bind] in Hres. injection Hres as <-.
  destruct (flat_map_region_best d coverages Hcov) as [Hrows Hcount].
  destruct (length coverages =? 1)%nat eqn:E.
  - unfold best_hit. rewrite take_1_stable_sort.
    destruct (first_best _ _) as [x|] eqn:Hx; simpl.
    + assert (Hin : x ∈ d).
      { apply first_best_min in Hx as [Hx _];
          [by apply quicksort_elem in Hx
          |apply by_e_val_alignment_length_total
          |apply by_e_val_alignment_length_trans]. }
      split; [|split].
      * destruct d; [by apply elem_of_nil in Hin|simpl; lia].
      * intros row ->%list_elem_of_singleton. by exists x.
      * right. left. by eexists.
    + split; [lia|]. split; [|by left].
      intros row Hrow. by apply elem_of_nil in Hrow.
  - assert (Hrows' : Forall2 (best_in_region d) coverages
              (reindex (flat_map (region_best (quicksort qs by_e_val d))
                          coverages))).
    { apply Forall2_reindex; [|done]. intros cov r i [H1 H2]. by split. }
    pose proof (Forall2_length _ _ _ Hrows') as Hlen'.
    split; [lia|]. split.
    + intros row Hrow.
      destruct (Forall2_right_elem _ _ _ Hrows' row Hrow)
        as (cov & _ & _ & r & Hr & Hhit & _).
      by exists r.
    + apply Nat.eqb_neq in E.
      destruct coverages as [|c1 [|c2 coverages]]; [|done|].
      * left. by destruct (reindex _).
      * right. right. split; [rewrite <- Hlen'; simpl; lia|].
        intros row Hrow.
        by destruct (Forall2_right_elem _ _ _ Hrows' row Hrow) as (cov & _ & H & _).
Qed.

Lemma reindex_labels (d : DataFrame) :
  map label (reindex d) = seq 0 (length d).
Proof.
  unfold reindex.
  assert (H : forall n,
    map label (imap (fun i r => mkRow (n + i) (hit r) (origin r)) d)
      = seq n (length d)).
  { induction d as [|r d IH]; intros n; simpl; [done|].
    rewrite Nat.add_0_r. f_equal. rewrite <- (IH (S n)). f_equal.
    apply imap_ext. intros i x _. simpl. f_equal. lia. }
  apply (H 0%nat).
Qed.

(** X11. In the branch with several intervals the frame returned has a
    fresh index: its labels are 0, 1, ... in the order of the intervals,
    one per interval, whatever the labels of the input were. *)
Theorem assign_tax_chimera_index
    (s : store) (l : loc) (d : DataFrame) (coverages : list (Z * Z)) :
  s !! l = Some d ->
  (1 < length d)%nat ->
  (forall r, r ∈ d -> alignment_length (hit r) < query_length (hit r)) ->
  coverages_of d = Some coverages ->
  (1 < length coverages)%nat ->
  exists out l' s',
    assign_tax l s = Some (l', s') /\
    s' !! l' = Some out /\
    map label out = seq 0 (length coverages).
Proof.
  intros Hd Hlen Hshort Hcov Hmany.
  pose proof (assign_tax_resolve s l d Hd ltac:(lia)) as Hrun.
  unfold resolve in Hrun.
  destruct (no_full_no_over d Hshort) as [Hf Ho].
  rewrite Hf, Ho, Hcov in Hrun. cbn [mbind option_bind] in Hrun.
  assert (Hne : (length coverages =? 1)%nat = false) by (apply Nat.eqb_neq; lia).
  rewrite Hne in Hrun. destruct Hrun as (l' & s' & Hrun & Hout & _).
  eexists _, l', s'. split; [done|]. split; [done|].
  rewrite reindex_labels. f_equal. symmetry.
  destruct (flat_map_region_best d coverages Hcov) as [Hrows _].
  by apply Forall2_length in Hrows.
Qed.

Lemma StronglySorted_app_tail {A : Type} (R : A -> A -> Prop) (l1 l2 : list A) :
  StronglySorted R (l1 ++ l2) -> StronglySorted R l2.
Proof.
  induction l1 as [|x l1 IH]; simpl; [done|].
  intros [H _]%StronglySorted_inv. by apply IH.
Qed.

(** The first row of the frame sorted by [e_val] that passes a test has the
    smallest [e_val] of the rows of the input that pass it. *)
Lemma first_match_smallest_e_val (P : Row -> bool) (d : DataFrame) (r : Row) :
  List.find P (quicksort qs by_e_val d) = Some r ->
  r ∈ d /\ P r = true /\
  forall r', r' ∈ d -> P r' = true -> (e_val (hit r) <= e_val (hit r'))%Q.
Proof.
  intros Hr. split; [by eapply first_match_elem|].
  destruct (find_split _ _ _ Hr) as (before & after & Heq & HP & Hbefore).
  split; [done|]. intros r' Hr' HP'.
  destruct (sorted_by_e_val d) as [_ Hsorted]. rewrite Heq in Hsorted.
  apply (quicksort_elem by_e_val) in Hr'. rewrite Heq in Hr'.
  apply elem_of_app in Hr' as [Hr'|Hr'].
  - pose proof (proj1 (Forall_forall _ _) Hbefore r' Hr') as H.
    simpl in H. congruence.
  - apply elem_of_cons in Hr' as [->|Hr']; [apply Qle_refl|].
    apply StronglySorted_app_tail, StronglySorted_inv in Hsorted as [_ H].
    by apply (proj1 (Forall_forall _ _) H).
Qed.

(** X12. Given more than one hit.  If some hit has [alignment_length]
    equal to [query_length], the hit returned is, among these, one of
    smallest [e_val], whatever the e-values of the other hits.  If none has,
    and some hit has [alignment_length] above [query_length], the hit
    returned is, among those, one of smallest [e_val]. *)
Theorem assign_tax_smallest_e_val (s : store) (l : loc) (d : DataFrame) :
  s !! l = Some d ->
  (1 < length d)%nat ->
  ((exists r, r ∈ d /\ alignment_length (hit r) = query_length (hit r)) ->
   exists r l' s',
     r ∈ d /\ alignment_length (hit r) = query_length (hit r) /\
     (forall r', r' ∈ d ->
        alignment_length (hit r') = query_length (hit r') ->
        (e_val (hit r) <= e_val (hit r'))%Q) /\
     assign_tax l s = Some (l', s') /\
     s' !! l' = Some [mkRow 0 (hit r) (Some single)]) /\
  ((forall r, r ∈ d -> alignment_length (hit r) <> query_length (hit r)) ->
   (exists r, r ∈ d /\ query_length (hit r) < alignment_length (hit r)) ->
   exists r l' s',
     r ∈ d /\ query_length (hit r) < alignment_length (hit r) /\
     (forall r', r' ∈ d ->
        query_length (hit r') < alignment_length (hit r') ->
        (e_val (hit r) <= e_val (hit r'))%Q) /\
     assign_tax l s = Some (l', s') /\
     s' !! l' = Some [mkRow 0 (hit r) (Some single)]).
Proof.
  intros Hd Hlen.
  pose proof (assign_tax_resolve s l d Hd ltac:(lia)) as Hrun.
  unfold resolve in Hrun. split.
  - intros (r0 & Hr0 & Hfull).
    destruct (find_is_Some is_full_length (quicksort qs by_e_val d) r0)
      as [r Hr]; [by apply quicksort_elem|unfold is_full_length; lia|].
    rewrite Hr in Hrun. destruct Hrun as (l' & s' & Hrun & Hout & _).
    apply first_match_smallest_e_val in Hr as (Hin & HP & Hmin).
    exists r, l', s'. unfold is_full_length in *.
    repeat split; try done; [lia|].
    intros r' Hr' H'. apply Hmin; [done|lia].
  - intros Hnofull (r0 & Hr0 & Hover).
    rewrite find_none_all in Hrun.
    2:{ intros r Hr%quicksort_elem. apply Hnofull in Hr.
        unfold is_full_length. lia. }
    destruct (find_is_Some is_over_length (quicksort qs by_e_val d) r0)
      as [r Hr]; [by apply quicksort_elem|unfold is_over_length; lia|].
    rewrite Hr in Hrun. destruct Hrun as (l' & s' & Hrun & Hout & _).
    apply first_match_smallest_e_val in Hr as (Hin & HP & Hmin).
    exists r, l', s'. unfold is_over_length in *.
    repeat split; try done; [lia|].
    intros r' Hr' H'. apply Hmin; [done|lia].
Qed.

Lemma coverages_of_apart (d : DataFrame) (coverages : list (Z * Z)) :
  (forall r, r ∈ d -> 1 <= start (hit r)) ->
  coverages_of d = Some coverages ->
  StronglySorted (fun a b => snd a < fst b) coverages.
Proof.
  intros Hone Hcov. destruct (start_sorted_spec d) as [Hperm Hsorted].
  set (spans := map (fun r => (start (hit r), end_ (hit r))) (start_sorted d)).
  assert (Hfst : map fst spans = map (fun r => start (hit r)) (start_sorted d)).
  { unfold spans. rewrite map_map. by apply map_ext. }
  assert (Hsnd : map snd spans = map (fun r => end_ (hit r)) (start_sorted d)).
  { unfold spans. rewrite map_map. by apply map_ext. }
  unfold coverages_of in Hcov. rewrite <- Hfst, <- Hsnd in Hcov.
  destruct (get_coverages_ascending spans)
    as (Hasc & b & rest & Heq & _ & Hrun).
  { rewrite Hfst. apply StronglySorted_Sorted.
    by apply (StronglySorted_map Z.le (fun r => start (hit r))). }
  { apply Forall_forall. intros sp Hsp.
    apply list_elem_of_In, in_map_iff in Hsp as (r & <- & Hr). simpl.
    apply Hone. rewrite <- Hperm. by apply list_elem_of_In. }
  rewrite Hcov in Hrun. injection Hrun as ->.
  pose proof (merge_from_apart spans (1, 1) Hasc) as Hapart.
  rewrite Heq in Hapart.
  destruct (b =? 1); [|done]. by apply StronglySorted_inv in Hapart as [? _].
Qed.

Lemma StronglySorted_Forall2 {A B : Type} (R : A -> A -> Prop)
    (Q : B -> B -> Prop) (P : A -> B -> Prop) (l : list A) (k : list B) :
  (forall a1 a2 b1 b2, R a1 a2 -> P a1 b1 -> P a2 b2 -> Q b1 b2) ->
  Forall2 P l k -> StronglySorted R l -> StronglySorted Q k.
Proof.
  intros HQ H. induction H as [|a b l k Hab Hlk IH]; intros Hl; [constructor|].
  apply StronglySorted_inv in Hl as [Hl Ha].
  constructor; [by apply IH|].
  apply Forall_forall. intros b' Hb'.
  destruct (Forall2_right_elem _ _ _ Hlk b' Hb') as (a' & Ha' & Hab').
  eapply HQ; [|exact Hab|exact Hab'].
  by apply (proj1 (Forall_forall _ _) Ha).
Qed.

(** X13. In the branch with several intervals, on hits that all start at
    position 1 or later, the hits returned come in ascending order along
    the contig and do not overlap: each ends before the next one starts. *)
Theorem assign_tax_chimera_rows_apart
    (s : store) (l : loc) (d : DataFrame) (coverages : list (Z * Z)) :
  s !! l = Some d ->
  (1 < length d)%nat ->
  (forall r, r ∈ d -> alignment_length (hit r) < query_length (hit r)) ->
  (forall r, r ∈ d -> 1 <= start (hit r)) ->
  coverages_of d = Some coverages ->
  (1 < length coverages)%nat ->
  exists out l' s',
    assign_tax l s = Some (l', s') /\
    s' !! l' = Some out /\
    StronglySorted (fun r1 r2 => end_ (hit r1) < start (hit r2)) out.
Proof.
  intros Hd Hlen Hshort Hone Hcov Hmany.
  pose proof (assign_tax_resolve s l d Hd ltac:(lia)) as Hrun.
  unfold resolve in Hrun.
  destruct (no_full_no_over d Hshort) as [Hf Ho].
  rewrite Hf, Ho, Hcov in Hrun. cbn [mbind option_bind] in Hrun.
  assert (Hne : (length coverages =? 1)%nat = false) by (apply Nat.eqb_neq; lia).
  rewrite Hne in Hrun. destruct Hrun as (l' & s' & Hrun & Hout & _).
  eexists _, l', s'. split; [done|]. split; [done|].
  destruct (flat_map_region_best d coverages Hcov) as [Hrows _].
  eapply (StronglySorted_Forall2 (fun a b => snd a < fst b) _
            (best_in_region d) coverages).
  - intros c1 c2 r1 r2 Hc (_ & x1 & _ & -> & [_ H1] & _)
      (_ & x2 & _ & -> & [H2 _] & _). lia.
  - apply Forall2_reindex; [|done]. intros cov r i [H1 H2]. by split.
  - by eapply coverages_of_apart.
Qed.

End AssignTax.

(* ------------------------------------------------------------------ *)
(** ** The theorems at work

    The frames of the tests, run with the sort that keeps equal keys in
    frame order. *)

Lemma assign_tax_full_length_witness :
  [in_various_full_hits] !! 0%nat = Some in_various_full_hits /\
  (1 < length in_various_full_hits)%nat /\
  exists before r after l' s',
    Permutation (quicksort stable_quicksort by_e_val in_various_full_hits)
      in_various_full_hits /\
    StronglySorted (fun r1 r2 => (e_val (hit r1) <= e_val (hit r2))%Q)
      (quicksort stable_quicksort by_e_val in_various_full_hits) /\
    quicksort stable_quicksort by_e_val in_various_full_hits = before ++ r :: after /\
    alignment_length (hit r) = query_length (hit r) /\
    Forall (fun r' => alignment_length (hit r') <> query_length (hit r'))
      before /\
    assign_tax stable_quicksort 0%nat [in_various_full_hits] = Some (l', s') /\
    s' !! l' = Some [mkRow 0 (hit r) (Some single)].
Proof.
  split; [reflexivity|]. split; [simpl; lia|].
  apply (proj1 (assign_tax_full_length stable_quicksort) [in_various_full_hits] 0%nat
           in_various_full_hits).
  - reflexivity.
  - simpl; lia.
  - exists (mkRow 0 (mkHit "k1_1" "GCF_001"
                       (116 # 1000000000000000000000000000000)
                       535 535 1 535) None).
    split; [|reflexivity]. left.
Defined.

Lemma assign_tax_over_length_witness :
  [in_longer_than_query] !! 0%nat = Some in_longer_than_query /\
  (1 < length in_longer_than_query)%nat /\
  exists before r after l' s',
    Permutation (quicksort stable_quicksort by_e_val in_longer_than_query)
      in_longer_than_query /\
    StronglySorted (fun r1 r2 => (e_val (hit r1) <= e_val (hit r2))%Q)
      (quicksort stable_quicksort by_e_val in_longer_than_query) /\
    quicksort stable_quicksort by_e_val in_longer_than_query = before ++ r :: after /\
    query_length (hit r) < alignment_length (hit r) /\
    Forall (fun r' => alignment_length (hit r') <= query_length (hit r'))
      before /\
    assign_tax stable_quicksort 0%nat [in_longer_than_query] = Some (l', s') /\
    s' !! l' = Some [mkRow 0 (hit r) (Some single)].
Proof.
  split; [reflexivity|]. split; [simpl; lia|].
  apply (assign_tax_over_length stable_quicksort [in_longer_than_query] 0%nat
           in_longer_than_query).
  - reflexivity.
  - simpl; lia.
  - intros r Hr. unfold in_longer_than_query in Hr. simpl in Hr.
    repeat (apply elem_of_cons in Hr as [->|Hr]; [simpl; lia|]).
    by apply elem_of_nil in Hr.
  - exists (mkRow 1 (mkHit "k1_1" "GCF_002" 0 570 571 1 570) None).
    split; [right; left|simpl; lia].
Defined.


Lemma assign_tax_empty_witness :
  [[]] !! 0%nat = Some ([] : DataFrame) /\
  exists l' s', assign_tax stable_quicksort 0%nat [[]] = Some (l', s') /\ s' !! l' = Some [].
Proof.
  split; [reflexivity|]. apply (assign_tax_empty stable_quicksort [[]] 0%nat). reflexivity.
Defined.

Lemma assign_tax_chimera_witness :
  [in_chimera] !! 0%nat = Some in_chimera /\
  (1 < length in_chimera)%nat /\
  coverages_of stable_quicksort in_chimera = Some [(1, 201); (251, 500)] /\
  exists out l' s',
    assign_tax stable_quicksort 0%nat [in_chimera] = Some (l', s') /\
    s' !! l' = Some out /\
    Forall2 (best_in_region in_chimera) [(1, 201); (251, 500)] out.
Proof.
  split; [reflexivity|]. split; [simpl; lia|]. split; [reflexivity|].
  apply (assign_tax_chimera stable_quicksort [in_chimera] 0%nat in_chimera
           [(1, 201); (251, 500)]).
  - reflexivity.
  - simpl; lia.
  - intros r Hr. unfold in_chimera in Hr. simpl in Hr.
    repeat (apply elem_of_cons in Hr as [->|Hr]; [simpl; lia|]).
    by apply elem_of_nil in Hr.
  - reflexivity.
  - simpl; lia.
Defined.

Lemma assign_tax_returns_witness :
  [in_chimera] !! 0%nat = Some in_chimera /\
  (forall r, r ∈ in_chimera -> 1 <= start (hit r)) /\
  exists l' s' out,
    assign_tax stable_quicksort 0%nat [in_chimera] = Some (l', s') /\ s' !! l' = Some out.
Proof.
  assert (H : forall r, r ∈ in_chimera -> 1 <= start (hit r)).
  { intros r Hr. unfold in_chimera in Hr. simpl in Hr.
    repeat (apply elem_of_cons in Hr as [->|Hr]; [simpl; lia|]).
    by apply elem_of_nil in Hr. }
  split; [reflexivity|]. split; [exact H|].
  exact (assign_tax_returns stable_quicksort [in_chimera] 0%nat in_chimera eq_refl H).
Defined.

Lemma assign_tax_other_frames_witness :
  [in_no_full_hits; in_chimera] !! 1%nat = Some in_chimera /\
  length in_chimera <> 1%nat /\
  match assign_tax stable_quicksort 1%nat [in_no_full_hits; in_chimera] with
  | Some (l', s') =>
      (length [in_no_full_hits; in_chimera] <= l')%nat /\
      forall j, (j < length [in_no_full_hits; in_chimera])%nat ->
        s' !! j = [in_no_full_hits; in_chimera] !! j
  | None => True
  end.
Proof.
  split; [reflexivity|]. split; [simpl; lia|].
  apply (assign_tax_other_frames stable_quicksort [in_no_full_hits; in_chimera] 1%nat
           in_chimera); [reflexivity|simpl; lia].
Defined.

Lemma assign_tax_one_row_witness :
  [in_chimera; [mkRow 7 (mkHit "k1_1" "GCF_001" 0 535 535 1 535) (Some chimera)]]
    !! 1%nat
    = Some [mkRow 7 (mkHit "k1_1" "GCF_001" 0 535 535 1 535) (Some chimera)] /\
  exists s',
    assign_tax stable_quicksort 1%nat
      [in_chimera;
       [mkRow 7 (mkHit "k1_1" "GCF_001" 0 535 535 1 535) (Some chimera)]]
      = Some (1%nat, s') /\
    s' !! 1%nat =
      Some [mkRow 7 (mkHit "k1_1" "GCF_001" 0 535 535 1 535) (Some single)] /\
    length s' =
      length [in_chimera;
              [mkRow 7 (mkHit "k1_1" "GCF_001" 0 535 535 1 535)
                 (Some chimera)]] /\
    forall j, j <> 1%nat ->
      s' !! j =
      [in_chimera;
       [mkRow 7 (mkHit "k1_1" "GCF_001" 0 535 535 1 535) (Some chimera)]]
        !! j.
Proof.
  split; [reflexivity|].
  apply (assign_tax_one_row stable_quicksort
           [in_chimera;
            [mkRow 7 (mkHit "k1_1" "GCF_001" 0 535 535 1 535) (Some chimera)]]
           1%nat
           (mkRow 7 (mkHit "k1_1" "GCF_001" 0 535 535 1 535) (Some chimera))).
  reflexivity.
Defined.

Lemma assign_tax_raises_below_1_witness :
  assign_tax stable_quicksort 0%nat
    [[mkRow 0 (mkHit "k1_1" "GCF_001" 0 100 6 0 5) None;
      mkRow 1 (mkHit "k1_1" "GCF_002" 0 100 3 1 3) None]] = None.
Proof.
  apply (assign_tax_raises_below_1 stable_quicksort _ 0%nat
           (mkRow 0 (mkHit "k1_1" "GCF_001" 0 100 6 0 5) None)
           (mkRow 1 (mkHit "k1_1" "GCF_002" 0 100 3 1 3) None)
           [mkRow 0 (mkHit "k1_1" "GCF_001" 0 100 6 0 5) None;
            mkRow 1 (mkHit "k1_1" "GCF_002" 0 100 3 1 3) None]);
    simpl; first [by left | reflexivity | lia].
Defined.

Lemma assign_tax_output_shape_witness :
  [in_chimera] !! 0%nat = Some in_chimera /\
  match assign_tax stable_quicksort 0%nat [in_chimera] with
  | Some (l', s') =>
      exists out,
        s' !! l' = Some out /\
        (length out <= length in_chimera)%nat /\
        (forall row, row ∈ out -> exists r, r ∈ in_chimera /\ hit row = hit r) /\
        (out = [] \/
         (exists row, out = [row] /\ origin row = Some single) \/
         ((2 <= length out)%nat /\
          forall row, row ∈ out -> origin row = Some chimera))
  | None => True
  end.
Proof.
  split; [reflexivity|].
  apply (assign_tax_output_shape stable_quicksort [in_chimera] 0%nat in_chimera). reflexivity.
Defined.

Lemma assign_tax_chimera_index_witness :
  [map (fun r => mkRow (10 + label r) (hit r) None) in_chimera] !! 0%nat
    = Some (map (fun r => mkRow (10 + label r) (hit r) None) in_chimera) /\
  coverages_of stable_quicksort (map (fun r => mkRow (10 + label r) (hit r) None) in_chimera)
    = Some [(1, 201); (251, 500)] /\
  exists out l' s',
    assign_tax stable_quicksort 0%nat
      [map (fun r => mkRow (10 + label r) (hit r) None) in_chimera]
      = Some (l', s') /\
    s' !! l' = Some out /\
    map label out = seq 0 2.
Proof.
  split; [reflexivity|]. split; [reflexivity|].
  apply (assign_tax_chimera_index stable_quicksort _ 0%nat
           (map (fun r => mkRow (10 + label r) (hit r) None) in_chimera)
           [(1, 201); (251, 500)]).
  - reflexivity.
  - simpl; lia.
  - intros r Hr. unfold in_chimera in Hr. simpl in Hr.
    repeat (apply elem_of_cons in Hr as [->|Hr]; [simpl; lia|]).
    by apply elem_of_nil in Hr.
  - reflexivity.
  - simpl; lia.
Defined.

Lemma assign_tax_smallest_e_val_witness :
  [in_various_full_hits] !! 0%nat = Some in_various_full_hits /\
  (1 < length in_various_full_hits)%nat /\
  exists r l' s',
    r ∈ in_various_full_hits /\
    alignment_length (hit r) = query_length (hit r) /\
    (forall r', r' ∈ in_various_full_hits ->
       alignment_length (hit r') = query_length (hit r') ->
       (e_val (hit r) <= e_val (hit r'))%Q) /\
    assign_tax stable_quicksort 0%nat [in_various_full_hits] = Some (l', s') /\
    s' !! l' = Some [mkRow 0 (hit r) (Some single)].
Proof.
  split; [reflexivity|]. split; [simpl; lia|].
  apply (proj1 (assign_tax_smallest_e_val stable_quicksort [in_various_full_hits] 0%nat
                  in_various_full_hits eq_refl ltac:(simpl; lia))).
  exists (mkRow 1 (mkHit "k1_1" "GCF_002" 0 535 535 1 535) None).
  split; [right; left|reflexivity].
Defined.

Lemma assign_tax_chimera_rows_apart_witness :
  [in_chimera] !! 0%nat = Some in_chimera /\
  (1 < length in_chimera)%nat /\
  coverages_of stable_quicksort in_chimera = Some [(1, 201); (251, 500)] /\
  exists out l' s',
    assign_tax stable_quicksort 0%nat [in_chimera] = Some (l', s') /\
    s' !! l' = Some out /\
    StronglySorted (fun r1 r2 => end_ (hit r1) < start (hit r2)) out.
Proof.
  split; [reflexivity|]. split; [simpl; lia|]. split; [reflexivity|].
  apply (assign_tax_chimera_rows_apart stable_quicksort [in_chimera] 0%nat in_chimera
           [(1, 201); (251, 500)]).
  - reflexivity.
  - simpl; lia.
  - intros r Hr. unfold in_chimera in Hr. simpl in Hr.
    repeat (apply elem_of_cons in Hr as [->|Hr]; [simpl; lia|]).
    by apply elem_of_nil in Hr.
  - intros r Hr. unfold in_chimera in Hr. simpl in Hr.
    repeat (apply elem_of_cons in Hr as [->|Hr]; [simpl; lia|]).
    by apply elem_of_nil in Hr.
  - reflexivity.
  - simpl; lia.
Defined.


(** With the sort that keeps equal keys in frame order, of the two hits
    tied at e-value 0 and length 417 the one that comes first in the input
    is returned. *)
Example assign_tax_tied_hits :
  call_assign_tax stable_quicksort in_tied_hits =
    Some (in_tied_hits,
          [mkRow 1 (mkHit "k1_1" "GCF_002" 0 570 417 1 416) (Some single)],
          false).
Proof. reflexivity. Qed.

